(** * go-safe-csv-writer: a shallow embedding of the CSV encoder

    The package is a fork of Go's [encoding/csv] writer with a safety
    policy against formula injection.  This development embeds the
    writer ([SafeWriter.Write], [WriteAll], [Flush], [Error],
    [fieldNeedsQuotes], [validDelim]) together with the parts of the Go
    standard library it calls ([unicode/utf8], [unicode], [strings],
    [bufio]) and proves the properties stated for it.

    Conventions.  A Go [string] is a sequence of bytes: [string] of
    Rocq, one [ascii] per byte.  A [rune] is an [int32], modelled as a
    [Z]; conversions to [byte] and [uint32] wrap around explicitly.
    Lengths are [nat]; indices that Go reports as [-1] when absent are
    [Z]. *)

From Stdlib Require Import ZArith List Bool Ascii String Lia Arith.
From Equations Require Import Equations.
Import ListNotations.

Open Scope string_scope.
Open Scope Z_scope.

(** ** Bytes and runes *)

Definition byte := ascii.
Definition rune := Z.

(** Numeric value of a byte. *)
Definition b2z (c : byte) : Z := Z.of_N (N_of_ascii c).

(** Go's conversion [byte(x)]: the low eight bits. *)
Definition z2b (x : Z) : byte := ascii_of_N (Z.to_N (x mod 256)).

(** Go's conversion [uint32(r)] of an [int32]. *)
Definition uint32 (r : rune) : Z := r mod 2 ^ 32.

(** The rune of an ASCII character literal, as in ['='] or ['\n']. *)
Definition lit (c : ascii) : rune := b2z c.

Definition TAB : ascii := "009"%char.
Definition LF : ascii := "010"%char.
Definition CR : ascii := "013"%char.
Definition DQ : ascii := "034"%char.

(** Case analysis on a computed value that keeps the equation. *)
Definition inspect {A : Type} (x : A) : {y : A | x = y} := exist _ x eq_refl.

(** One-byte string, [s[:i]] and [s[i:]]. *)
Definition str1 (c : byte) : string := String c "".

Fixpoint take (n : nat) (s : string) : string :=
  match n, s with
  | S n', String c s' => String c (take n' s')
  | _, _ => ""
  end.

Fixpoint drop (n : nat) (s : string) : string :=
  match n, s with
  | S n', String _ s' => drop n' s'
  | _, _ => s
  end.

Definition len (s : string) : nat := String.length s.

(** [s[i]] as a number; the callers below guard every index. *)
Definition byteAt (s : string) (i : nat) : Z :=
  match String.get i s with
  | Some c => b2z c
  | None => 0
  end.

(** Basic facts about slices, used by the termination arguments. *)

Lemma len_app (s t : string) : len (s ++ t) = (len s + len t)%nat.
Proof. induction s as [|c s IH]; simpl; [reflexivity | unfold len in *; simpl; rewrite IH; reflexivity]. Qed.

Lemma len_take (n : nat) (s : string) : len (take n s) = Nat.min n (len s).
Proof.
  revert s; induction n as [|n IH]; intros [|c s]; simpl; try reflexivity.
  unfold len in *; simpl; rewrite IH; reflexivity.
Qed.

Lemma len_drop (n : nat) (s : string) : len (drop n s) = (len s - n)%nat.
Proof.
  revert s; induction n as [|n IH]; intros [|c s]; simpl; try reflexivity.
  unfold len in *; simpl; rewrite IH; reflexivity.
Qed.

Lemma take_drop (n : nat) (s : string) : take n s ++ drop n s = s.
Proof.
  revert s; induction n as [|n IH]; intros [|c s]; simpl; try reflexivity.
  rewrite IH; reflexivity.
Qed.

Lemma take_all (n : nat) (s : string) : (len s <= n)%nat -> take n s = s.
Proof.
  revert s; induction n as [|n IH]; intros [|c s]; unfold len; simpl; intros H;
    try reflexivity; try lia.
  rewrite IH; [reflexivity | unfold len; lia].
Qed.

Lemma app_nil_r (s : string) : s ++ "" = s.
Proof. induction s as [|c s IH]; simpl; [|rewrite IH]; reflexivity. Qed.

Lemma app_assoc (s t u : string) : (s ++ t) ++ u = s ++ t ++ u.
Proof. induction s as [|c s IH]; simpl; [|rewrite IH]; reflexivity. Qed.

Lemma len_0 (s : string) : len s = 0%nat -> s = "".
Proof. destruct s; [reflexivity | discriminate]. Qed.

(** ** Package unicode/utf8 *)

Module utf8.

Definition RuneError : rune := 0xFFFD.
Definition RuneSelf : rune := 0x80.
Definition MaxRune : rune := 0x10FFFF.
Definition UTFMax : nat := 4.

Definition surrogateMin : rune := 0xD800.
Definition surrogateMax : rune := 0xDFFF.

Definition t1 := 0x00.
Definition tx := 0x80.
Definition t2 := 0xC0.
Definition t3 := 0xE0.
Definition t4 := 0xF0.
Definition t5 := 0xF8.

Definition maskx := 0x3F.
Definition mask2 := 0x1F.
Definition mask3 := 0x0F.
Definition mask4 := 0x07.

Definition rune1Max := 0x7F.
Definition rune2Max := 0x7FF.
Definition rune3Max := 0xFFFF.

Definition locb := 0x80.
Definition hicb := 0xBF.

(** Entries of the [first] table: size in the low bits, index of the
    accept range in the high bits. *)
Definition xx := 0xF1.
Definition as_ := 0xF0.
Definition s1 := 0x02.
Definition s2 := 0x13.
Definition s3 := 0x03.
Definition s4 := 0x23.
Definition s5 := 0x34.
Definition s6 := 0x04.
Definition s7 := 0x44.

(** The table [first], by ranges of the leading byte. *)
Definition first (b : Z) : Z :=
  if b <? 0x80 then as_
  else if b <? 0xC2 then xx
  else if b <? 0xE0 then s1
  else if b =? 0xE0 then s2
  else if b <? 0xED then s3
  else if b =? 0xED then s4
  else if b <? 0xF0 then s3
  else if b =? 0xF0 then s5
  else if b <? 0xF4 then s6
  else if b =? 0xF4 then s7
  else xx.

(** The table [acceptRanges]: bounds of the second byte. *)
Definition acceptRanges (i : Z) : Z * Z :=
  if i =? 1 then (0xA0, hicb)
  else if i =? 2 then (locb, 0x9F)
  else if i =? 3 then (0x90, hicb)
  else if i =? 4 then (locb, 0x8F)
  else (locb, hicb).

Definition ValidRune (r : rune) : bool :=
  if (0 <=? r) && (r <? surrogateMin) then true
  else if (surrogateMax <? r) && (r <=? MaxRune) then true
  else false.

(** [DecodeRuneInString]: the first rune of [s] and its width. *)
Definition DecodeRuneInString (s : string) : rune * nat :=
  let n := len s in
  if (n <? 1)%nat then (RuneError, 0%nat)
  else
    let s0 := byteAt s 0 in
    let x := first s0 in
    if as_ <=? x then
      (* mask is all ones for xx and zero for as *)
      ((if Z.testbit x 0 then RuneError else s0), 1%nat)
    else
      let sz := Z.to_nat (Z.land x 7) in
      let accept := acceptRanges (Z.shiftr x 4) in
      if (n <? sz)%nat then (RuneError, 1%nat)
      else
        let b1 := byteAt s 1 in
        if (b1 <? fst accept) || (snd accept <? b1) then (RuneError, 1%nat)
        else if (sz <=? 2)%nat then
          (Z.lor (Z.shiftl (Z.land s0 mask2) 6) (Z.land b1 maskx), 2%nat)
        else
          let b2 := byteAt s 2 in
          if (b2 <? locb) || (hicb <? b2) then (RuneError, 1%nat)
          else if (sz <=? 3)%nat then
            (Z.lor (Z.lor (Z.shiftl (Z.land s0 mask3) 12)
                          (Z.shiftl (Z.land b1 maskx) 6))
                   (Z.land b2 maskx), 3%nat)
          else
            let b3 := byteAt s 3 in
            if (b3 <? locb) || (hicb <? b3) then (RuneError, 1%nat)
            else
              (Z.lor (Z.lor (Z.lor (Z.shiftl (Z.land s0 mask4) 18)
                                   (Z.shiftl (Z.land b1 maskx) 12))
                            (Z.shiftl (Z.land b2 maskx) 6))
                     (Z.land b3 maskx), 4%nat).

(** [EncodeRune] (and the conversion [string(r)]): the UTF-8 bytes of
    [r]; an invalid rune is encoded as [RuneError]. *)
Definition encode3 (r : rune) : string :=
  String (z2b (Z.lor t3 (b2z (z2b (Z.shiftr r 12)))))
    (String (z2b (Z.lor tx (Z.land (b2z (z2b (Z.shiftr r 6))) maskx)))
       (String (z2b (Z.lor tx (Z.land (b2z (z2b r)) maskx))) "")).

Definition EncodeRune (r : rune) : string :=
  let i := uint32 r in
  if i <=? rune1Max then str1 (z2b r)
  else if i <=? rune2Max then
    String (z2b (Z.lor t2 (b2z (z2b (Z.shiftr r 6)))))
      (String (z2b (Z.lor tx (Z.land (b2z (z2b r)) maskx))) "")
  else if (i <? surrogateMin) || ((surrogateMax <? i) && (i <=? rune3Max))
  then encode3 r
  else if (rune3Max <? i) && (i <=? MaxRune) then
    String (z2b (Z.lor t4 (b2z (z2b (Z.shiftr r 18)))))
      (String (z2b (Z.lor tx (Z.land (b2z (z2b (Z.shiftr r 12))) maskx)))
         (String (z2b (Z.lor tx (Z.land (b2z (z2b (Z.shiftr r 6))) maskx)))
            (String (z2b (Z.lor tx (Z.land (b2z (z2b r)) maskx))) "")))
  else encode3 RuneError.

End utf8.

(** ** Package unicode *)

Module unicode.

Definition MaxLatin1 : rune := 0xFF.

(** The range table [White_Space] above Latin-1. *)
Definition White_Space_excludingLatin (r : rune) : bool :=
  (r =? 0x1680)
  || ((0x2000 <=? r) && (r <=? 0x200A))
  || ((0x2028 <=? r) && (r <=? 0x2029))
  || (r =? 0x202F) || (r =? 0x205F) || (r =? 0x3000).

Definition IsSpace (r : rune) : bool :=
  if uint32 r <=? MaxLatin1 then
    (r =? lit TAB) || (r =? lit LF) || (r =? 0x0B) || (r =? 0x0C)
    || (r =? lit CR) || (r =? lit " ") || (r =? 0x85) || (r =? 0xA0)
  else White_Space_excludingLatin r.

End unicode.

(** ** Package strings *)

Module strings.

Fixpoint hasByte (chars : string) (c : byte) : bool :=
  match chars with
  | "" => false
  | String d chars' => Ascii.eqb c d || hasByte chars' c
  end.

(** [IndexByte]: index of the first byte equal to [c], or [-1]. *)
Fixpoint IndexByte (s : string) (c : byte) : Z :=
  match s with
  | "" => -1
  | String d s' =>
    if Ascii.eqb d c then 0
    else let i := IndexByte s' c in if i <? 0 then -1 else i + 1
  end.

(** [IndexAny] for a set [chars] of ASCII characters (the writer only
    passes the three characters quote, CR and LF): index of the first
    byte of [s] that is in [chars], or [-1]. *)
Fixpoint IndexAny (s chars : string) : Z :=
  match s with
  | "" => -1
  | String d s' =>
    if hasByte chars d then 0
    else let i := IndexAny s' chars in if i <? 0 then -1 else i + 1
  end.

Definition ContainsAny (s chars : string) : bool := 0 <=? IndexAny s chars.

Fixpoint HasPrefix (s prefix : string) : bool :=
  match prefix, s with
  | "", _ => true
  | String p prefix', String c s' => Ascii.eqb c p && HasPrefix s' prefix'
  | String _ _, "" => false
  end.

(** [Index]: index of the first occurrence of [substr] in [s], or [-1]. *)
Fixpoint Index (s substr : string) : Z :=
  if HasPrefix s substr then 0
  else match s with
       | "" => -1
       | String _ s' =>
         let i := Index s' substr in if i <? 0 then -1 else i + 1
       end.

(** Position of the first rune of [s] that decodes to [RuneError],
    as the [range] loop of [IndexRune] finds it.  [fuel] bounds the
    number of runes; [len s] is always enough. *)
Fixpoint indexRuneError (fuel : nat) (s : string) : Z :=
  match fuel with
  | O => -1
  | S fuel' =>
    if (len s =? 0)%nat then -1
    else
      let '(r, size) := utf8.DecodeRuneInString s in
      if r =? utf8.RuneError then 0
      else let i := indexRuneError fuel' (drop size s) in
           if i <? 0 then -1 else i + Z.of_nat size
  end.

Definition IndexRune (s : string) (r : rune) : Z :=
  if (0 <=? r) && (r <? utf8.RuneSelf) then IndexByte s (z2b r)
  else if r =? utf8.RuneError then indexRuneError (len s) s
  else if negb (utf8.ValidRune r) then -1
  else Index s (utf8.EncodeRune r).

Definition ContainsRune (s : string) (r : rune) : bool := 0 <=? IndexRune s r.

End strings.

(** ** Errors

    A Go [error] value is [option error], [None] being [nil]. *)

Inductive error : Type :=
| errInvalidDelim             (* csv: invalid field or comment delimiter *)
| ErrShortWrite               (* io.ErrShortWrite *)
| sinkError (msg : string).   (* an error of the underlying io.Writer *)

Definition isNil (e : option error) : bool :=
  match e with None => true | Some _ => false end.

(** ** Package io: the underlying byte sink

    An [io.Writer] is a long-lived resource handed to the writer.  Its
    model records the bytes it has accepted and a script of the outcomes
    of its next calls: [Accept] takes the whole slice and returns [nil];
    [Fail n e] takes at most [n] bytes and returns [e].  An empty script
    accepts for ever, which is a [strings.Builder].  The contract of
    [io.Writer] (a short write returns a non-nil error) holds by
    construction.  [isStringWriter] says whether the sink also has the
    method [WriteString] of [io.StringWriter], which takes the bytes of
    a string as [Write] takes those of a slice. *)

Module io.

Inductive outcome : Type :=
| Accept
| Fail (n : nat) (e : error).

Record Writer : Type := mkWriter {
  written : string;
  script : list outcome;
  isStringWriter : bool
}.

Definition Write (w : Writer) (p : string) : Writer * nat * option error :=
  match script w with
  | [] =>
    (mkWriter (written w ++ p) [] (isStringWriter w), len p, None)
  | Accept :: rest =>
    (mkWriter (written w ++ p) rest (isStringWriter w), len p, None)
  | Fail n e :: rest =>
    let n := Nat.min n (len p) in
    (mkWriter (written w ++ take n p) rest (isStringWriter w), n, Some e)
  end.

End io.

(** [strings.Builder]: accepts everything, implements [io.StringWriter]. *)
Definition Builder (content : string) : io.Writer := io.mkWriter content [] true.

(** ** Package bufio: the buffered writer *)

Module bufio.

Definition defaultBufSize : nat := 4096.

(** [buf] is the filled part [b.buf[0:b.n]] of the buffer, whose
    capacity is [defaultBufSize]. *)
Record Writer : Type := mkWriter {
  err : option error;
  buf : string;
  wr : io.Writer
}.

Definition NewWriter (w : io.Writer) : Writer := mkWriter None "" w.

Definition Available (b : Writer) : nat := (defaultBufSize - len (buf b))%nat.
Definition Buffered (b : Writer) : nat := len (buf b).

Definition Flush (b : Writer) : Writer * option error :=
  match err b with
  | Some e => (b, Some e)
  | None =>
    if (len (buf b) =? 0)%nat then (b, None)
    else
      let '(wr', n, e) := io.Write (wr b) (buf b) in
      let e := if (n <? len (buf b))%nat && isNil e
               then Some ErrShortWrite else e in
      match e with
      | Some e' => (mkWriter (Some e') (drop n (buf b)) wr', Some e')
      | None => (mkWriter None "" wr', None)
      end
  end.

(** The loop shared by [Write] and [WriteString]:
    [for len(s) > b.Available() && b.err == nil]. *)
Definition loopCond (b : Writer) (s : string) : bool :=
  (Available b <? len s)%nat && isNil (err b).

(** One iteration; [direct] says whether an empty buffer forwards the
    slice to the underlying writer (always for [Write], only for an
    [io.StringWriter] for [WriteString]).  Returns the new state and
    the number [n] of bytes of [s] consumed. *)
Definition loopBody (direct : bool) (b : Writer) (s : string) : Writer * nat :=
  if (Buffered b =? 0)%nat && direct then
    let '(wr', n, e) := io.Write (wr b) s in
    (mkWriter e (buf b) wr', n)
  else
    let n := Nat.min (len s) (Available b) in
    (fst (Flush (mkWriter (err b) (buf b ++ take n s) (wr b))), n).

Definition loopMeasure (b : Writer) (s : string) : nat :=
  match err b with
  | Some _ => 0
  | None => 2 * len s + (if (Available b =? 0)%nat then 1 else 0)
  end.

Lemma defaultBufSize_pos : (0 < defaultBufSize)%nat.
Proof. unfold defaultBufSize; lia. Qed.

Lemma io_Write_nil (w : io.Writer) (p : string) w' n :
  io.Write w p = (w', n, None) -> n = len p.
Proof.
  unfold io.Write; destruct (io.script w) as [|[|k e] rest]; intros H;
    inversion H; reflexivity.
Qed.

Lemma Flush_measure (b : Writer) (s : string) :
  err b = None -> (0 < len (buf b))%nat ->
  (loopMeasure (fst (Flush b)) s <= 2 * len s)%nat.
Proof.
  intros He Hb. unfold Flush. rewrite He.
  destruct (Nat.eqb_spec (len (buf b)) 0) as [E|_]; [lia|].
  destruct (io.Write (wr b) (buf b)) as [[wr' n] e] eqn:W.
  destruct e as [e|].
  - rewrite andb_false_r. unfold loopMeasure; cbn [fst err]. lia.
  - apply io_Write_nil in W. subst n. rewrite Nat.ltb_irrefl.
    cbn [andb fst]. unfold loopMeasure, Available; cbn [err buf].
    pose proof defaultBufSize_pos.
    destruct (Nat.eqb_spec (defaultBufSize - len "") 0) as [E|_];
      [unfold len in E; cbn [String.length] in E; lia | lia].
Qed.

Lemma loopBody_decreases (direct : bool) (b : Writer) (s : string) :
  loopCond b s = true ->
  (loopMeasure (fst (loopBody direct b s)) (drop (snd (loopBody direct b s)) s)
   < loopMeasure b s)%nat.
Proof.
  unfold loopCond. intros H. apply andb_prop in H as [Hlt He].
  apply Nat.ltb_lt in Hlt. destruct (err b) as [e|] eqn:Eb; [discriminate|].
  pose proof defaultBufSize_pos as Hsz.
  unfold loopBody.
  destruct ((Buffered b =? 0)%nat && direct) eqn:D.
  - destruct (io.Write (wr b) s) as [[wr' n] e] eqn:W. simpl.
    unfold loopMeasure at 1; simpl. destruct e as [e|].
    + unfold loopMeasure; rewrite Eb; lia.
    + apply io_Write_nil in W. subst n. rewrite len_drop.
      unfold loopMeasure; rewrite Eb.
      apply andb_prop in D as [D _]. apply Nat.eqb_eq in D.
      unfold Buffered in D. unfold Available in *. cbn [buf]. rewrite D in *.
      destruct (Nat.eqb_spec (defaultBufSize - 0) 0); lia.
  - cbn [fst snd].
    set (n := Nat.min (len s) (Available b)).
    set (b1 := mkWriter (err b) (buf b ++ take n s) (wr b)).
    assert (Hn : n = Available b) by (unfold n; lia).
    destruct (Nat.eq_dec (len (buf b1)) 0) as [Z0|NZ].
    + (* nothing buffered and nothing copied: the buffer has no room *)
      unfold b1 in Z0; simpl in Z0. rewrite len_app, len_take in Z0.
      unfold Available in *. lia.
    + pose proof (Flush_measure b1 (drop n s)) as F.
      unfold b1 at 1 2 in F; simpl in F. specialize (F Eb ltac:(unfold b1 in NZ; simpl in NZ; lia)).
      fold b1 in F. rewrite len_drop in F.
      unfold loopMeasure at 2. rewrite Eb.
      destruct (Nat.eqb_spec (Available b) 0) as [A0|A1]; lia.
Qed.

Equations writeLoop (direct : bool) (b : Writer) (s : string) (nn : nat)
  : Writer * string * nat by wf (loopMeasure b s) lt :=
  writeLoop direct b s nn with inspect (loopCond b s) := {
    | exist _ true _ =>
      writeLoop direct (fst (loopBody direct b s))
                (drop (snd (loopBody direct b s)) s)
                (nn + snd (loopBody direct b s));
    | exist _ false _ => (b, s, nn) }.
Next Obligation. apply loopBody_decreases; assumption. Qed.

(** After the loop: report the sticky error, or copy what is left of
    [s] into the buffer. *)
Definition writeTail (r : Writer * string * nat) : Writer * nat * option error :=
  let '(b, s, nn) := r in
  match err b with
  | Some e => (b, nn, Some e)
  | None => (mkWriter None (buf b ++ s) (wr b), (nn + len s)%nat, None)
  end.

Definition Write (b : Writer) (p : string) : Writer * nat * option error :=
  writeTail (writeLoop true b p 0%nat).

Definition WriteString (b : Writer) (s : string) : Writer * nat * option error :=
  writeTail (writeLoop (io.isStringWriter (wr b)) b s 0%nat).

Definition WriteByte (b : Writer) (c : byte) : Writer * option error :=
  match err b with
  | Some e => (b, Some e)
  | None =>
    let b1 := if (Available b <=? 0)%nat then fst (Flush b) else b in
    match err b1 with
    | Some e => (b1, Some e)
    | None => (mkWriter None (buf b1 ++ str1 c) (wr b1), None)
    end
  end.

Definition WriteRune (b : Writer) (r : rune) : Writer * nat * option error :=
  if uint32 r <? utf8.RuneSelf then
    let '(b1, e) := WriteByte b (z2b r) in
    match e with
    | Some e' => (b1, 0%nat, Some e')
    | None => (b1, 1%nat, None)
    end
  else
    match err b with
    | Some e => (b, 0%nat, Some e)
    | None =>
      if (Available b <? utf8.UTFMax)%nat then
        let b1 := fst (Flush b) in
        match err b1 with
        | Some e => (b1, 0%nat, Some e)
        | None =>
          if (Available b1 <? utf8.UTFMax)%nat then
            (* can only happen if the buffer is silly small *)
            WriteString b1 (utf8.EncodeRune r)
          else
            (mkWriter None (buf b1 ++ utf8.EncodeRune r) (wr b1),
             len (utf8.EncodeRune r), None)
        end
      else
        (mkWriter None (buf b ++ utf8.EncodeRune r) (wr b),
         len (utf8.EncodeRune r), None)
    end.

End bufio.

(** ** Package csv: the safe writer *)

Record SafetyOpts : Type := mkSafetyOpts {
  ForceDoubleQuotes : bool;
  EscapeCharEqual : bool;
  EscapeCharPlus : bool;
  EscapeCharMinus : bool;
  EscapeCharAt : bool;
  EscapeCharTab : bool;
  EscapeCharCR : bool
}.

Definition FullSafety : SafetyOpts :=
  mkSafetyOpts true true true true true true true.

Definition EscapeAll : SafetyOpts :=
  mkSafetyOpts false true true true true true true.

Record SafeWriter : Type := mkSafeWriter {
  Comma : rune;        (* field delimiter, set to ',' by NewSafeWriter *)
  UseCRLF : bool;      (* true to use \r\n as the line terminator *)
  w : bufio.Writer;
  opts : SafetyOpts
}.

Definition NewSafeWriter (wr : io.Writer) (o : SafetyOpts) : SafeWriter :=
  mkSafeWriter (lit ",") false (bufio.NewWriter wr) o.

(** The writer with its buffered writer replaced: the only part of a
    [SafeWriter] that the methods change. *)
Definition withW (sw : SafeWriter) (b : bufio.Writer) : SafeWriter :=
  mkSafeWriter (Comma sw) (UseCRLF sw) b (opts sw).

Definition validDelim (r : rune) : bool :=
  negb (r =? 0) && negb (r =? lit DQ) && negb (r =? lit CR)
  && negb (r =? lit LF) && utf8.ValidRune r && negb (r =? utf8.RuneError).

(** *** Actions on the buffered writer

    [Write] threads the buffered writer through a sequence of calls and
    returns at the first error: a small state and error monad. *)

Definition action : Type := bufio.Writer -> bufio.Writer * option error.

Definition skip : action := fun b => (b, None).

Definition andThen (a1 a2 : action) : action :=
  fun b =>
    let '(b1, e) := a1 b in
    match e with
    | Some x => (b1, Some x)
    | None => a2 b1
    end.

Notation "a1 ;; a2" := (andThen a1 a2) (at level 61, right associativity).

Definition writeString (s : string) : action :=
  fun b => let '(b', _, e) := bufio.WriteString b s in (b', e).

Definition writeByte (c : byte) : action :=
  fun b => bufio.WriteByte b c.

Definition writeRune (r : rune) : action :=
  fun b => let '(b', _, e) := bufio.WriteRune b r in (b', e).

(** *** Sanitizing the leading character (the [switch] of [Write]) *)

(** [field[0]], for a field known to be non-empty. *)
Definition at0 (field : string) : byte :=
  match field with
  | String c _ => c
  | "" => zero
  end.

Definition sanitize (o : SafetyOpts) (field : string) : string :=
  if (0 <? len field)%nat then
    if EscapeCharEqual o && Ascii.eqb (at0 field) "=" then " " ++ field
    else if EscapeCharPlus o && Ascii.eqb (at0 field) "+" then " " ++ field
    else if EscapeCharMinus o && Ascii.eqb (at0 field) "-" then " " ++ field
    else if EscapeCharAt o && Ascii.eqb (at0 field) "@" then " " ++ field
    else if EscapeCharTab o && Ascii.eqb (at0 field) TAB then " " ++ field
    else if EscapeCharCR o && Ascii.eqb (at0 field) LF then " " ++ field
    else field
  else field.

(** *** fieldNeedsQuotes *)

(** The characters quote, CR and LF. *)
Definition specials : string := String DQ (String CR (String LF "")).

(** The Postgres end-of-data marker, backslash and dot. *)
Definition endOfData : string := "\.".

(** The loop [for i := 0; i < len(field); i++] of the ASCII branch. *)
Fixpoint anyByte (p : byte -> bool) (field : string) : bool :=
  match field with
  | "" => false
  | String c field' => if p c then true else anyByte p field'
  end.

Definition fieldNeedsQuotes (sw : SafeWriter) (field : string) : bool :=
  if String.eqb field "" then false
  else if String.eqb field endOfData then true
  else if ForceDoubleQuotes (opts sw) then true
  else if
    (if Comma sw <? utf8.RuneSelf then
       anyByte (fun c => Ascii.eqb c LF || Ascii.eqb c CR || Ascii.eqb c DQ
                         || Ascii.eqb c (z2b (Comma sw))) field
     else
       strings.ContainsRune field (Comma sw)
       || strings.ContainsAny field specials)
  then true
  else unicode.IsSpace (fst (utf8.DecodeRuneInString field)).

(** *** The quoted field *)

Definition encodeSpecial (useCRLF : bool) (c : byte) : action :=
  if Ascii.eqb c DQ then writeString (String DQ (String DQ ""))
  else if Ascii.eqb c CR then
    if negb useCRLF then writeByte CR else skip
  else if Ascii.eqb c LF then
    if useCRLF then writeString (String CR (String LF "")) else writeByte LF
  else skip.

(** [i := strings.IndexAny(field, specials); if i < 0 { i = len(field) }] *)
Definition nextSpecial (field : string) : nat :=
  let i := strings.IndexAny field specials in
  Z.to_nat (if i <? 0 then Z.of_nat (len field) else i).

(** The loop [for len(field) > 0] between the two quotes. *)
Equations quotedBody (useCRLF : bool) (field : string) : action
  by wf (len field) lt :=
  quotedBody useCRLF field with inspect (0 <? len field)%nat := {
    | exist _ false _ => skip
    | exist _ true _
        with inspect (0 <? len (drop (nextSpecial field) field))%nat := {
      | exist _ true _ =>
        writeString (take (nextSpecial field) field) ;;
        encodeSpecial useCRLF (at0 (drop (nextSpecial field) field)) ;;
        quotedBody useCRLF (drop 1 (drop (nextSpecial field) field))
      | exist _ false _ =>
        writeString (take (nextSpecial field) field) ;;
        quotedBody useCRLF (drop (nextSpecial field) field) } }.
Next Obligation.
  clear quotedBody. apply Nat.ltb_lt in e, e0.
  change (len (drop 1 (drop (nextSpecial field) field)) < len field)%nat.
  rewrite !len_drop. rewrite len_drop in e0. lia.
Qed.
Next Obligation.
  clear quotedBody. apply Nat.ltb_lt in e. apply Nat.ltb_ge in e0. lia.
Qed.

(** *** Write, Flush, Error, WriteAll *)

(** The body of the loop over the fields, after the delimiter. *)
Definition writeField (sw : SafeWriter) (field : string) : action :=
  let field := sanitize (opts sw) field in
  if negb (fieldNeedsQuotes sw field) then writeString field
  else writeByte DQ ;; quotedBody (UseCRLF sw) field ;; writeByte DQ.

(** [for n, field := range record]. *)
Fixpoint writeFields (sw : SafeWriter) (n : nat) (record : list string) : action :=
  match record with
  | [] => skip
  | field :: rest =>
    (if (0 <? n)%nat then writeRune (Comma sw) else skip) ;;
    writeField sw field ;;
    writeFields sw (S n) rest
  end.

Definition writeTerminator (sw : SafeWriter) : action :=
  if UseCRLF sw then writeString (String CR (String LF "")) else writeByte LF.

Definition Write (sw : SafeWriter) (record : list string)
  : SafeWriter * option error :=
  if negb (validDelim (Comma sw)) then (sw, Some errInvalidDelim)
  else
    let '(b, e) := (writeFields sw 0 record ;; writeTerminator sw) (w sw) in
    (withW sw b, e).

Definition Flush (sw : SafeWriter) : SafeWriter :=
  withW sw (fst (bufio.Flush (w sw))).

Definition Error (sw : SafeWriter) : SafeWriter * option error :=
  let '(b, _, e) := bufio.Write (w sw) "" in (withW sw b, e).

Fixpoint WriteAll (sw : SafeWriter) (records : list (list string))
  : SafeWriter * option error :=
  match records with
  | [] => let '(b, e) := bufio.Flush (w sw) in (withW sw b, e)
  | record :: rest =>
    let '(sw1, e) := Write sw record in
    match e with
    | Some x => (sw1, Some x)
    | None => WriteAll sw1 rest
    end
  end.

(** What the sink holds once the buffer is flushed: the bytes it has
    accepted followed by the bytes still buffered. *)
Definition stream (b : bufio.Writer) : string :=
  io.written (bufio.wr b) ++ bufio.buf b.

Definition output (sw : SafeWriter) : string := stream (w sw).

(** ** The encoding, stated on bytes

    The functions of this section describe the bytes of a record
    independently of the buffered writer: they are what the properties
    below compare [Write] with. *)

(** The image of one byte inside a quoted field. *)
Definition escapeByte (useCRLF : bool) (c : byte) : string :=
  if Ascii.eqb c DQ then String DQ (String DQ "")
  else if Ascii.eqb c CR then (if useCRLF then "" else String CR "")
  else if Ascii.eqb c LF then
    (if useCRLF then String CR (String LF "") else String LF "")
  else String c "".

Fixpoint escape (useCRLF : bool) (field : string) : string :=
  match field with
  | "" => ""
  | String c field' => escapeByte useCRLF c ++ escape useCRLF field'
  end.

Definition quoted (useCRLF : bool) (field : string) : string :=
  String DQ (escape useCRLF field ++ String DQ "").

(** The bytes of one field: sanitized, then quoted or verbatim. *)
Definition encodeField (sw : SafeWriter) (field : string) : string :=
  let field := sanitize (opts sw) field in
  if fieldNeedsQuotes sw field then quoted (UseCRLF sw) field else field.

Definition terminator (useCRLF : bool) : string :=
  if useCRLF then String CR (String LF "") else String LF "".

(** The delimiter before all but the first field. *)
Fixpoint joinFields (sep : string) (fields : list string) : string :=
  match fields with
  | [] => ""
  | [f] => f
  | f :: rest => f ++ sep ++ joinFields sep rest
  end.

(** The delimiter before every field: the fields after the first. *)
Fixpoint delimited (sep : string) (fields : list string) : string :=
  match fields with
  | [] => ""
  | f :: rest => sep ++ f ++ delimited sep rest
  end.

Definition encodeRecord (sw : SafeWriter) (record : list string) : string :=
  joinFields (utf8.EncodeRune (Comma sw)) (map (encodeField sw) record)
  ++ terminator (UseCRLF sw).

(** The bytes of a sequence of records. *)
Fixpoint encodeRecords (sw : SafeWriter) (records : list (list string)) : string :=
  match records with
  | [] => ""
  | record :: rest => encodeRecord sw record ++ encodeRecords sw rest
  end.

(** [Contains s sub]: the bytes [sub] occur in [s]. *)
Definition Contains (s sub : string) : Prop :=
  exists pre post, s = pre ++ sub ++ post.

(** A switch of the policy fires on the leading byte [c]. *)
Definition fires (o : SafetyOpts) (c : byte) : bool :=
  (EscapeCharEqual o && Ascii.eqb c "=")
  || (EscapeCharPlus o && Ascii.eqb c "+")
  || (EscapeCharMinus o && Ascii.eqb c "-")
  || (EscapeCharAt o && Ascii.eqb c "@")
  || (EscapeCharTab o && Ascii.eqb c TAB)
  || (EscapeCharCR o && Ascii.eqb c LF).

(** ** A reference reader

    The package has no read path; the round trip is stated against the
    reader below. *)

(** Modelled from the spec: the standard-conformant CSV reader configured
    with the same delimiter and CRLF mode, which the round-trip property
    decodes with and which is not part of the package.  It follows the
    grammar of RFC 4180.  A field that starts with a double quote is
    quoted: it runs to the closing double quote, a doubled double quote
    standing for one; any other field runs to the next delimiter or line
    terminator.  The line terminator is LF, or CR LF in CRLF mode, and
    in CRLF mode the pair CR LF inside a quoted field is read as LF,
    the inverse of what the writer does to a line feed. *)
Fixpoint readQuoted (useCRLF : bool) (input : string) : option (string * string) :=
  match input with
  | "" => None
  | String c rest =>
    if Ascii.eqb c DQ then
      match rest with
      | String d rest' =>
        if Ascii.eqb d DQ then
          match readQuoted useCRLF rest' with
          | Some (f, r) => Some (String DQ f, r)
          | None => None
          end
        else Some ("", rest)
      | "" => Some ("", rest)
      end
    else
      match rest with
      | String d rest' =>
        if useCRLF && Ascii.eqb c CR && Ascii.eqb d LF then
          match readQuoted useCRLF rest' with
          | Some (f, r) => Some (String LF f, r)
          | None => None
          end
        else
          match readQuoted useCRLF rest with
          | Some (f, r) => Some (String c f, r)
          | None => None
          end
      | "" => None
      end
  end.

(** Modelled from the spec: the reader's unquoted field, the bytes
    before the next delimiter or line terminator. *)
Fixpoint readPlain (sep term : string) (input : string) : string * string :=
  match input with
  | "" => ("", "")
  | String c rest =>
    if strings.HasPrefix input sep || strings.HasPrefix input term
    then ("", input)
    else let '(f, r) := readPlain sep term rest in (String c f, r)
  end.

(** Modelled from the spec: one field of the reader, quoted when it
    starts with a double quote. *)
Definition readField (sep term : string) (useCRLF : bool) (input : string)
  : option (string * string) :=
  match input with
  | String c rest =>
    if Ascii.eqb c DQ then readQuoted useCRLF rest
    else Some (readPlain sep term input)
  | "" => Some ("", "")
  end.

(** Modelled from the spec: the fields of one record and the input
    after its line terminator; [fuel] bounds the number of fields. *)
Fixpoint readFields (fuel : nat) (sep term : string) (useCRLF : bool)
         (input : string) : option (list string * string) :=
  match fuel with
  | O => None
  | S fuel' =>
    match readField sep term useCRLF input with
    | None => None
    | Some (f, rest) =>
      if strings.HasPrefix rest term then Some ([f], drop (len term) rest)
      else if strings.HasPrefix rest sep then
        match readFields fuel' sep term useCRLF (drop (len sep) rest) with
        | Some (fs, r) => Some (f :: fs, r)
        | None => None
        end
      else None
    end
  end.

(** Modelled from the spec: the reader of one record.  Every field
    takes at least one byte of delimiter or terminator, so the length of
    the input bounds the number of fields. *)
Definition readRecord (comma : rune) (useCRLF : bool) (input : string)
  : option (list string * string) :=
  readFields (S (len input)) (utf8.EncodeRune comma) (terminator useCRLF)
             useCRLF input.

(** [written_all sw records sw']: every record of [records] is written
    in order without error, taking the writer from [sw] to [sw']. *)
Inductive written_all : SafeWriter -> list (list string) -> SafeWriter -> Prop :=
| written_nil (sw : SafeWriter) : written_all sw [] sw
| written_cons (sw sw1 sw2 : SafeWriter) (record : list string)
               (rest : list (list string)) :
    Write sw record = (sw1, None) ->
    written_all sw1 rest sw2 ->
    written_all sw (record :: rest) sw2.

(** The policy whose only enabled switch is [EscapeCharEqual]. *)
Definition onlyEqual : SafetyOpts :=
  mkSafetyOpts false true false false false false false.

(** The policy whose only enabled switch is [EscapeCharCR]. *)
Definition onlyCR : SafetyOpts :=
  mkSafetyOpts false false false false false false true.

(** The policy with every switch off. *)
Definition noSafety : SafetyOpts :=
  mkSafetyOpts false false false false false false false.

(** Two fields with a carriage return: [a CR b] and [ab CR]. *)
Definition fieldMidCR : string := String "a" (String CR "b").
Definition fieldEndCR : string := String "a" (String "b" (String CR "")).

(** The decoded field that the round trip expects: the field, behind a
    space when a switch of the policy fires on its first byte. *)
Definition expectedField (o : SafetyOpts) (field : string) : string :=
  match field with
  | "" => ""
  | String c _ => if fires o c then String " " field else field
  end.

(** A fresh writer over an empty [strings.Builder], with the exported
    fields set before the first write. *)
Definition freshWriter (comma : rune) (useCRLF : bool) (o : SafetyOpts) : SafeWriter :=
  mkSafeWriter comma useCRLF (bufio.NewWriter (Builder "")) o.

(** *** The test of the package

    [buildTest] of the test file: four records written to a fresh
    writer over a [strings.Builder], a flush, a check of [Error], and
    the content of the builder; [None] where the test would panic. *)

Definition testRecords : list (list string) :=
  [ ["userId"; "secret"; "comment"];
    ["-21+63"; "=A1"; "foo, bar"];
    ["+42"; String TAB "secret"; String LF "plop"];
    ["123"; "blablabla"; "@foobar"] ].

Fixpoint mustWrite (sw : SafeWriter) (records : list (list string))
  : option SafeWriter :=
  match records with
  | [] => Some sw
  | record :: rest =>
    match Write sw record with
    | (sw1, None) => mustWrite sw1 rest
    | (_, Some _) => None
    end
  end.

Definition buildTest (forceDoubleQuotes escapeCharEqual escapeCharPlus
                      escapeCharMinus escapeCharAt escapeCharTab
                      escapeCharCR : bool) : option string :=
  let writer :=
      NewSafeWriter (Builder "")
        (mkSafetyOpts forceDoubleQuotes escapeCharEqual escapeCharPlus
                      escapeCharMinus escapeCharAt escapeCharTab escapeCharCR) in
  match mustWrite writer testRecords with
  | None => None
  | Some sw1 =>
    let sw2 := Flush sw1 in
    match Error sw2 with
    | (sw3, None) => Some (io.written (bufio.wr (w sw3)))
    | (_, Some _) => None
    end
  end.

(** A cell between quotes, and a line of cells. *)
Definition q (s : string) : string := String DQ (s ++ String DQ "").

Definition row (cells : list string) : string :=
  joinFields "," cells ++ String LF "".

(** [n] times the byte [c], for fields larger than the buffer. *)
Fixpoint replicate (n : nat) (c : byte) : string :=
  match n with
  | O => ""
  | S n' => String c (replicate n' c)
  end.

(** A sink that takes [n] bytes and fails. *)
Definition diskFull : error := sinkError "disk full".

Definition failingSink (n : nat) : io.Writer :=
  io.mkWriter "" [io.Fail n diskFull] false.

(** [healthy b]: no sticky error, and a sink that accepts for ever. *)
Definition healthy (b : bufio.Writer) : Prop :=
  bufio.err b = None /\ io.script (bufio.wr b) = [].

(** *** Actions that append bytes to the stream

    [stepped s b b' e]: a step from [b] to [b'] that returns [e] has
    written the bytes [s].  An error it returns is latched as the sticky
    error; from a writer without error, success leaves no error and the
    stream grown by exactly [s]; on a healthy writer it succeeds; a
    writer that already holds an error is left as it is; and in every
    case the stream has grown by a prefix of [s].  [appends s a]: every
    run of the action [a] is such a step. *)

Definition stepped (s : string) (b b' : bufio.Writer) (e : option error) : Prop :=
  (forall x, e = Some x -> bufio.err b' = Some x)
  /\ (bufio.err b = None -> e = None ->
      bufio.err b' = None /\ stream b' = stream b ++ s)
  /\ (healthy b -> e = None /\ healthy b')
  /\ (forall x, bufio.err b = Some x -> b' = b)
  /\ (exists k, (k <= len s)%nat /\ stream b' = stream b ++ take k s).

Definition appends (s : string) (a : action) : Prop :=
  forall b b' e, a b = (b', e) -> stepped s b b' e.

(** [strict a]: the action reports a sticky error that is already there
    (every call of the buffered writer does; [skip] does not). *)
Definition strict (a : action) : Prop :=
  forall b x, bufio.err b = Some x -> snd (a b) = Some x.

(** The record of the scenario and the line the writer produces for it. *)
Definition scenarioRecord : list string := ["userId"; "=A1"; "foo, bar"].

Definition scenarioLine : string := row ["userId"; q " =A1"; q "foo, bar"].

(** The line with the second field left unquoted. *)
Definition scenarioLineUnquoted : string :=
  row ["userId"; " =A1"; q "foo, bar"].

(** A leading byte: bits 7 and 6 set.  A continuation byte: bit 7 set,
    bit 6 clear. *)
Definition isLead (c : byte) : Prop :=
  Z.testbit (b2z c) 7 = true /\ Z.testbit (b2z c) 6 = true.

Definition isCont (c : byte) : Prop :=
  Z.testbit (b2z c) 7 = true /\ Z.testbit (b2z c) 6 = false.

(** What follows a field: the delimiter or the line terminator. *)
Definition follows (sep term more : string) : Prop :=
  strings.HasPrefix more sep = true \/ strings.HasPrefix more term = true.

(** ** The example program

    [writeToWriter] of the example: the records are written without
    looking at what [Write] returns, the writer is flushed, and the
    program panics when [Error] reports an error.  [writeIgnoring] is
    the sequence of ignored writes; [inr e] is the panic. *)

Fixpoint writeIgnoring (sw : SafeWriter) (records : list (list string)) : SafeWriter :=
  match records with
  | [] => sw
  | record :: rest => writeIgnoring (fst (Write sw record)) rest
  end.

Definition writeThenCheck (sw : SafeWriter) (records : list (list string))
  : SafeWriter + error :=
  let sw1 := writeIgnoring sw records in
  let sw2 := Flush sw1 in
  match Error sw2 with
  | (sw3, None) => inl sw3
  | (_, Some e) => inr e
  end.

Definition writeToWriter (sw : SafeWriter) : SafeWriter + error :=
  writeThenCheck sw testRecords.

(** [safeWriterForceDoubleQuotes] and [safeWriterEscapeEverything]: the
    content of the builder after [writeToWriter], [None] for a panic. *)
Definition builderAfter (r : SafeWriter + error) : option string :=
  match r with
  | inl sw => Some (io.written (bufio.wr (w sw)))
  | inr _ => None
  end.

Definition safeWriterForceDoubleQuotes : option string :=
  builderAfter (writeToWriter
    (NewSafeWriter (Builder "")
       (mkSafetyOpts true false false false false false false))).

Definition safeWriterEscapeEverything : option string :=
  builderAfter (writeToWriter (NewSafeWriter (Builder "") EscapeAll)).

(** ** Vocabulary of the further properties *)

(** The characters that the policy guards against. *)
Definition isTrigger (c : byte) : bool :=
  Ascii.eqb c "=" || Ascii.eqb c "+" || Ascii.eqb c "-" || Ascii.eqb c "@"
  || Ascii.eqb c TAB || Ascii.eqb c LF.

(** Every escape switch of the policy is on, as in both presets. *)
Definition allEscapes (o : SafetyOpts) : bool :=
  EscapeCharEqual o && EscapeCharPlus o && EscapeCharMinus o
  && EscapeCharAt o && EscapeCharTab o && EscapeCharCR o.

(** The first byte of the content of a written field: the byte after
    the opening quote of a quoted field, the first byte otherwise. *)
Definition firstContent (bytes : string) : option byte :=
  match bytes with
  | "" => None
  | String c rest =>
    if Ascii.eqb c DQ then
      match rest with
      | String d _ => Some d
      | "" => None
      end
    else Some c
  end.

(** Every carriage return is followed by a line feed and every line
    feed follows a carriage return. *)
Fixpoint crlfPaired (s : string) : bool :=
  match s with
  | "" => true
  | String c rest =>
    if Ascii.eqb c CR then
      match rest with
      | String d rest' => Ascii.eqb d LF && crlfPaired rest'
      | "" => false
      end
    else if Ascii.eqb c LF then false
    else crlfPaired rest
  end.

(** [buffers s a]: with room for [s] and one more rune in the buffer,
    the action [a] copies [s] into the buffer and leaves the sink
    alone. *)
Definition buffers (s : string) (a : action) : Prop :=
  forall b,
    bufio.err b = None ->
    (len (bufio.buf b) + len s + 3 <= bufio.defaultBufSize)%nat ->
    a b = (bufio.mkWriter None (bufio.buf b ++ s) (bufio.wr b), None).

(** * Properties *)

(** ** The expectations of the package's test *)

Example test_base_case :
  buildTest false false false false false false false
  = Some (row ["userId"; "secret"; "comment"]
          ++ row ["-21+63"; "=A1"; q "foo, bar"]
          ++ row ["+42"; q (String TAB "secret"); q (String LF "plop")]
          ++ row ["123"; "blablabla"; "@foobar"]).
Proof. reflexivity. Qed.

Example test_double_quotes :
  buildTest true false false false false false false
  = Some (row [q "userId"; q "secret"; q "comment"]
          ++ row [q "-21+63"; q "=A1"; q "foo, bar"]
          ++ row [q "+42"; q (String TAB "secret"); q (String LF "plop")]
          ++ row [q "123"; q "blablabla"; q "@foobar"]).
Proof. reflexivity. Qed.

Example test_escape_equal :
  buildTest false true false false false false false
  = Some (row ["userId"; "secret"; "comment"]
          ++ row ["-21+63"; q " =A1"; q "foo, bar"]
          ++ row ["+42"; q (String TAB "secret"); q (String LF "plop")]
          ++ row ["123"; "blablabla"; "@foobar"]).
Proof. reflexivity. Qed.

Example test_escape_plus :
  buildTest false false true false false false false
  = Some (row ["userId"; "secret"; "comment"]
          ++ row ["-21+63"; "=A1"; q "foo, bar"]
          ++ row [q " +42"; q (String TAB "secret"); q (String LF "plop")]
          ++ row ["123"; "blablabla"; "@foobar"]).
Proof. reflexivity. Qed.

Example test_escape_minus :
  buildTest false false false true false false false
  = Some (row ["userId"; "secret"; "comment"]
          ++ row [q " -21+63"; "=A1"; q "foo, bar"]
          ++ row ["+42"; q (String TAB "secret"); q (String LF "plop")]
          ++ row ["123"; "blablabla"; "@foobar"]).
Proof. reflexivity. Qed.

Example test_escape_at :
  buildTest false false false false true false false
  = Some (row ["userId"; "secret"; "comment"]
          ++ row ["-21+63"; "=A1"; q "foo, bar"]
          ++ row ["+42"; q (String TAB "secret"); q (String LF "plop")]
          ++ row ["123"; "blablabla"; q " @foobar"]).
Proof. reflexivity. Qed.

Example test_escape_tab :
  buildTest false false false false false true false
  = Some (row ["userId"; "secret"; "comment"]
          ++ row ["-21+63"; "=A1"; q "foo, bar"]
          ++ row ["+42"; q (String " " (String TAB "secret")); q (String LF "plop")]
          ++ row ["123"; "blablabla"; "@foobar"]).
Proof. reflexivity. Qed.

Example test_escape_line_feed :
  buildTest false false false false false false true
  = Some (row ["userId"; "secret"; "comment"]
          ++ row ["-21+63"; "=A1"; q "foo, bar"]
          ++ row ["+42"; q (String TAB "secret"); q (String " " (String LF "plop"))]
          ++ row ["123"; "blablabla"; "@foobar"]).
Proof. reflexivity. Qed.

Example test_escape_everything :
  buildTest false true true true true true true
  = Some (row ["userId"; "secret"; "comment"]
          ++ row [q " -21+63"; q " =A1"; q "foo, bar"]
          ++ row [q " +42"; q (String " " (String TAB "secret"));
                  q (String " " (String LF "plop"))]
          ++ row ["123"; "blablabla"; q " @foobar"]).
Proof. reflexivity. Qed.

Example test_escape_everything_force :
  buildTest true true true true true true true
  = Some (row [q "userId"; q "secret"; q "comment"]
          ++ row [q " -21+63"; q " =A1"; q "foo, bar"]
          ++ row [q " +42"; q (String " " (String TAB "secret"));
                  q (String " " (String LF "plop"))]
          ++ row [q "123"; q "blablabla"; q " @foobar"]).
Proof. reflexivity. Qed.

(** The buffer: a string larger than the buffer goes straight to a
    sink that is an [io.StringWriter]; a sink that fails stops the batch
    at the record whose bytes overflow the buffer, and [Error] reports
    the failure; a failure of the final flush is what [WriteAll]
    returns. *)
Example large_string_forwarded :
  let '(b, n, e) := bufio.WriteString (bufio.NewWriter (Builder ""))
                                      (replicate 5000 "a"%char) in
  (String.eqb (io.written (bufio.wr b)) (replicate 5000 "a"%char), bufio.buf b, n, e)
  = (true, "", 5000%nat, None).
Proof. vm_compute. reflexivity. Qed.

Example failing_sink_stops_batch :
  let '(sw, e) := WriteAll (NewSafeWriter (failingSink 10) noSafety)
                           [[replicate 3000 "a"%char]; [replicate 3000 "b"%char]; ["c"]] in
  (e, snd (Error sw), io.written (bufio.wr (w sw)))
  = (Some diskFull, Some diskFull, replicate 10 "a"%char).
Proof. vm_compute. reflexivity. Qed.

Example failing_flush_returned :
  let '(sw, e) := WriteAll (NewSafeWriter (failingSink 3) noSafety)
                           [["a"; "b"]; ["c"]] in
  (e, snd (Error sw), io.written (bufio.wr (w sw)))
  = (Some diskFull, Some diskFull, "a,b").
Proof. vm_compute. reflexivity. Qed.

(** Decoding the first rune, and white space beyond ASCII. *)
Example decode_euro : utf8.DecodeRuneInString "€x" = (0x20AC, 3%nat).
Proof. reflexivity. Qed.

Example encode_euro : utf8.EncodeRune 0x20AC = "€".
Proof. reflexivity. Qed.

Example ideographic_space_quoted :
  fieldNeedsQuotes (freshWriter (lit ",") false noSafety)
                   (utf8.EncodeRune 0x3000 ++ "x") = true.
Proof. reflexivity. Qed.

Example endOfData_bytes : endOfData = String "092" (String "046" "").
Proof. reflexivity. Qed.

(** ** Slices *)

Lemma drop_drop (n m : nat) (s : string) : drop m (drop n s) = drop (n + m) s.
Proof.
  revert s; induction n as [|n IH]; intros s; [reflexivity|].
  destruct s as [|c s]; [destruct m; reflexivity | apply IH].
Qed.

Lemma take_add (n m : nat) (s : string) :
  take (n + m) s = take n s ++ take m (drop n s).
Proof.
  revert s; induction n as [|n IH]; intros s; [reflexivity|].
  destruct s as [|c s]; simpl; [destruct m; reflexivity | rewrite IH; reflexivity].
Qed.

Lemma take_app_len (s t : string) (k : nat) :
  take (len s + k) (s ++ t) = s ++ take k t.
Proof. induction s as [|c s IH]; simpl; [|unfold len in *; rewrite IH]; reflexivity. Qed.

Lemma take_app_le (s t : string) (k : nat) :
  (k <= len s)%nat -> take k (s ++ t) = take k s.
Proof.
  revert k; induction s as [|c s IH]; intros [|k] H; simpl; try reflexivity.
  - unfold len in H; simpl in H; lia.
  - rewrite IH; [reflexivity | unfold len in *; simpl in H; lia].
Qed.

Lemma take_min (k : nat) (s : string) : take k s = take (Nat.min k (len s)) s.
Proof.
  destruct (Nat.le_gt_cases k (len s)) as [H|H].
  - rewrite Nat.min_l by assumption; reflexivity.
  - rewrite Nat.min_r by lia. rewrite !take_all by lia. reflexivity.
Qed.

Lemma take_0 (s : string) : take 0 s = "".
Proof. destruct s; reflexivity. Qed.

(** After [funelim]: drop the call equation and the packed [inspect]
    equalities, which keep the boolean tests from being rewritten. *)
Ltac clear_funelim :=
  repeat match goal with
         | E : _ = {| pr1 := _; pr2 := _ |} |- _ => clear E
         end.

(** Split a goal that is a conjunction, and only such a goal. *)
Ltac conjs := repeat match goal with |- _ /\ _ => split end.

(** ** The buffered writer *)

Lemma io_Write_spec (w : io.Writer) (p : string) :
  forall w' n e, io.Write w p = (w', n, e) ->
    io.written w' = io.written w ++ take n p
    /\ (n <= len p)%nat
    /\ (e = None -> n = len p)
    /\ (io.script w = [] -> e = None /\ io.script w' = [])
    /\ io.isStringWriter w' = io.isStringWriter w.
Proof.
  intros w' n e. unfold io.Write.
  destruct (io.script w) as [|[|k x] rest]; intros H; inversion H; subst; simpl.
  - rewrite take_all by lia. repeat split; auto.
  - rewrite take_all by lia. repeat split; auto; discriminate.
  - rewrite <- take_min. repeat split; auto; try discriminate; lia.
Qed.

(** [Flush] moves bytes from the buffer to the sink and latches the
    error it returns. *)
Lemma Flush_spec (b : bufio.Writer) :
  forall b' e, bufio.Flush b = (b', e) ->
    e = bufio.err b'
    /\ stream b' = stream b
    /\ (healthy b -> healthy b')
    /\ (forall x, bufio.err b = Some x -> b' = b)
    /\ (e = None -> bufio.buf b' = "")
    /\ io.isStringWriter (bufio.wr b') = io.isStringWriter (bufio.wr b).
Proof.
  intros b' e. unfold bufio.Flush, healthy.
  destruct (bufio.err b) as [x|] eqn:Eb.
  - intros H; inversion H; subst. conjs; auto; intuition congruence.
  - destruct (Nat.eqb_spec (len (bufio.buf b)) 0) as [E0|NE].
    + intros H; inversion H; subst.
      conjs; auto; try solve [intuition congruence].
      intros _. apply len_0; assumption.
    + destruct (io.Write (bufio.wr b) (bufio.buf b)) as [[wr' n] e1] eqn:W.
      destruct (io_Write_spec _ _ _ _ _ W) as (Hw & Hn & He1 & Hs & Hsw).
      destruct e1 as [x|].
      * rewrite andb_false_r. intros H; inversion H; subst.
        unfold stream; simpl. rewrite Hw, app_assoc, take_drop.
        conjs; auto; try solve [intuition congruence].
      * rewrite (He1 eq_refl), Nat.ltb_irrefl. simpl.
        intros H; inversion H; subst.
        unfold stream; simpl. rewrite Hw, (He1 eq_refl), take_all, app_nil_r by lia.
        conjs; auto; try solve [intuition congruence].
Qed.

Lemma loopBody_spec (direct : bool) (b : bufio.Writer) (s : string) :
  bufio.err b = None ->
  forall b1 n, bufio.loopBody direct b s = (b1, n) ->
    (n <= len s)%nat
    /\ stream b1 = stream b ++ take n s
    /\ (healthy b -> healthy b1).
Proof.
  intros Eb b1 n. unfold bufio.loopBody.
  destruct ((bufio.Buffered b =? 0)%nat && direct) eqn:D.
  - destruct (io.Write (bufio.wr b) s) as [[wr' k] e] eqn:W.
    destruct (io_Write_spec _ _ _ _ _ W) as (Hw & Hn & He1 & Hs & Hsw).
    intros H; inversion H; subst. apply andb_prop in D as [D _].
    apply Nat.eqb_eq in D. apply len_0 in D.
    unfold stream, healthy; simpl. rewrite Hw, D, !app_nil_r.
    conjs; auto. intros [_ Hh]. destruct (Hs Hh). auto.
  - intros H; inversion H; subst. clear H.
    set (n := Nat.min (len s) (bufio.Available b)).
    destruct (bufio.Flush (bufio.mkWriter (bufio.err b) (bufio.buf b ++ take n s) (bufio.wr b)))
      as [b1 e] eqn:F.
    destruct (Flush_spec _ _ _ F) as (_ & Hst & Hh & _).
    simpl. rewrite Hst. unfold stream at 1; simpl. rewrite <- app_assoc.
    conjs; [lia | reflexivity |].
    intros Hb. apply Hh. exact Hb.
Qed.

Lemma writeLoop_spec (direct : bool) (b : bufio.Writer) (s : string) (nn : nat) :
  forall b' s' nn', bufio.writeLoop direct b s nn = (b', s', nn') ->
    (exists k, (k <= len s)%nat /\ s' = drop k s
               /\ stream b' = stream b ++ take k s)
    /\ (healthy b -> healthy b')
    /\ (forall x, bufio.err b = Some x -> b' = b).
Proof.
  funelim (bufio.writeLoop direct b s nn); intros b' s' nn' R.
  - (* one more iteration *)
    clear Heqcall. clear_funelim.
    assert (Eb : bufio.err b = None).
    { unfold bufio.loopCond in e. apply andb_prop in e as [_ e].
      destruct (bufio.err b); [discriminate | reflexivity]. }
    destruct (bufio.loopBody direct b s) as [b1 n] eqn:B.
    destruct (loopBody_spec direct b s Eb _ _ B) as (Hn & Hst & Hh).
    simpl in *.
    destruct (H _ _ _ R) as ((k & Hk & Hs' & Hst') & Hh' & _).
    conjs.
    + exists (n + k)%nat. rewrite len_drop in Hk.
      rewrite Hs', Hst', Hst, drop_drop, take_add, app_assoc.
      conjs; [lia | reflexivity | reflexivity].
    + intros Hb. apply Hh', Hh, Hb.
    + intros x Hx. congruence.
  - (* the loop is over *)
    inversion R; subst.
    conjs; auto.
    exists 0%nat. rewrite take_0, app_nil_r.
    conjs; [lia | reflexivity | reflexivity].
Qed.

(** ** Actions that append bytes to the stream *)

(** The three ways a call of the buffered writer ends. *)

Lemma stepped_sticky (s : string) (b : bufio.Writer) (x : error) :
  bufio.err b = Some x -> stepped s b b (Some x).
Proof.
  intros Eb. unfold stepped, healthy. conjs.
  - intros y Hy. congruence.
  - intros; discriminate.
  - intros [Hb _]. congruence.
  - reflexivity.
  - exists 0%nat. rewrite take_0, app_nil_r. split; [lia | reflexivity].
Qed.

Lemma stepped_failed (s : string) (b b1 : bufio.Writer) (x : error) (k : nat) :
  bufio.err b = None -> bufio.err b1 = Some x ->
  (k <= len s)%nat -> stream b1 = stream b ++ take k s ->
  (healthy b -> healthy b1) ->
  stepped s b b1 (Some x).
Proof.
  intros Eb Eb1 Hk Hst Hh. unfold stepped. conjs.
  - intros y Hy. congruence.
  - intros; discriminate.
  - intros Hb. destruct (Hh Hb) as [Hb1 _]. congruence.
  - intros y Hy. congruence.
  - exists k. split; assumption.
Qed.

Lemma stepped_buffered (s : string) (b b1 : bufio.Writer) (k : nat) :
  bufio.err b = None -> bufio.err b1 = None ->
  stream b1 = stream b ++ take k s ->
  (healthy b -> healthy b1) ->
  stepped s b (bufio.mkWriter None (bufio.buf b1 ++ drop k s) (bufio.wr b1)) None.
Proof.
  intros Eb Eb1 Hst Hh.
  assert (St : stream (bufio.mkWriter None (bufio.buf b1 ++ drop k s) (bufio.wr b1))
               = stream b ++ s).
  { unfold stream in *; cbn [bufio.wr bufio.buf].
    rewrite <- app_assoc, Hst, app_assoc, take_drop. reflexivity. }
  unfold stepped. conjs.
  - intros; discriminate.
  - intros _ _. split; [reflexivity | exact St].
  - intros Hb. split; [reflexivity|]. destruct (Hh Hb) as [_ Hs].
    split; [reflexivity | exact Hs].
  - intros y Hy. congruence.
  - exists (len s). rewrite take_all by lia. split; [lia | exact St].
Qed.

Lemma stepped_buffered_all (s : string) (b b1 : bufio.Writer) :
  bufio.err b = None -> bufio.err b1 = None ->
  stream b1 = stream b ->
  (healthy b -> healthy b1) ->
  stepped s b (bufio.mkWriter None (bufio.buf b1 ++ s) (bufio.wr b1)) None.
Proof.
  intros Eb Eb1 Hst Hh.
  apply (stepped_buffered s b b1 0 Eb Eb1); [|exact Hh].
  rewrite take_0, app_nil_r. exact Hst.
Qed.

Lemma appends_skip : appends "" skip.
Proof.
  intros b b' e H. inversion H; subst. unfold stepped, healthy. conjs.
  - intros; discriminate.
  - intros Eb _. rewrite app_nil_r. auto.
  - intros Hb. auto.
  - reflexivity.
  - exists 0%nat. rewrite app_nil_r. split; [lia | reflexivity].
Qed.

Lemma appends_andThen (s t : string) (a1 a2 : action) :
  appends s a1 -> appends t a2 -> appends (s ++ t) (a1 ;; a2).
Proof.
  intros A1 A2 b b' e. unfold andThen.
  destruct (a1 b) as [b1 e1] eqn:E1.
  destruct (A1 _ _ _ E1) as (L1 & S1 & H1 & K1 & (k1 & Hk1 & P1)).
  destruct e1 as [x1|].
  - intros H; inversion H; subst. unfold stepped.
    conjs.
    + exact L1.
    + intros; discriminate.
    + intros Hb. destruct (H1 Hb); discriminate.
    + exact K1.
    + exists k1. rewrite take_app_le by assumption. rewrite len_app.
      split; [lia | assumption].
  - intros E2.
    destruct (A2 _ _ _ E2) as (L2 & S2 & H2 & K2 & (k2 & Hk2 & P2)).
    unfold stepped. conjs.
    + exact L2.
    + intros Eb Ee. destruct (S1 Eb eq_refl) as [Eb1 St1].
      destruct (S2 Eb1 Ee) as [Eb2 St2]. split; [assumption|].
      rewrite St2, St1, app_assoc. reflexivity.
    + intros Hb. destruct (H1 Hb) as [_ Hb1]. apply H2; assumption.
    + intros x Hx. pose proof (K1 _ Hx) as E. subst b1. apply (K2 _ Hx).
    + destruct (bufio.err b) as [x|] eqn:Eb.
      * pose proof (K1 _ eq_refl) as E. subst b1. rewrite (K2 _ Eb).
        exists 0%nat. rewrite take_0, app_nil_r. split; [lia | reflexivity].
      * destruct (S1 eq_refl eq_refl) as [_ St1].
        exists (len s + k2)%nat.
        rewrite take_app_len, P2, St1, app_assoc, len_app.
        split; [lia | reflexivity].
Qed.

Lemma strict_andThen_r (s : string) (a1 a2 : action) :
  appends s a1 -> strict a2 -> strict (a1 ;; a2).
Proof.
  intros A1 S2 b x Hx. unfold andThen.
  destruct (a1 b) as [b1 e1] eqn:E1.
  destruct (A1 _ _ _ E1) as (L1 & _ & _ & K1 & _).
  pose proof (K1 _ Hx) as E. subst b1.
  destruct e1 as [y|]; simpl.
  - rewrite (L1 _ eq_refl) in Hx. assumption.
  - apply S2; assumption.
Qed.

(** A strict action returns exactly the sticky error it leaves. *)
Lemma appends_strict_latch (s : string) (a : action) :
  appends s a -> strict a ->
  forall b b' e, a b = (b', e) -> bufio.err b' = e.
Proof.
  intros A S b b' e E. destruct (A _ _ _ E) as (L & St & _ & K & _).
  destruct e as [x|]; [apply L; reflexivity|].
  destruct (bufio.err b) as [x|] eqn:Eb.
  - specialize (S b x Eb). rewrite E in S. discriminate.
  - apply St; reflexivity.
Qed.

Lemma writeLoop_done (direct : bool) (b : bufio.Writer) (s : string) (nn : nat) :
  bufio.loopCond b s = false -> bufio.writeLoop direct b s nn = (b, s, nn).
Proof.
  intros C. funelim (bufio.writeLoop direct b s nn); [congruence | reflexivity].
Qed.

Lemma writeLoop_sticky (direct : bool) (b : bufio.Writer) (s : string) (nn : nat) :
  forall x, bufio.err b = Some x -> bufio.writeLoop direct b s nn = (b, s, nn).
Proof.
  intros x Hx. apply writeLoop_done.
  unfold bufio.loopCond. rewrite Hx. apply andb_false_r.
Qed.

(** The tail shared by [bufio.Write] and [bufio.WriteString]. *)
Lemma writeTail_spec (direct : bool) (s : string) :
  appends s (fun b =>
    let '(b', _, e) := bufio.writeTail (bufio.writeLoop direct b s 0%nat) in
    (b', e)).
Proof.
  intros b b' e.
  destruct (bufio.err b) as [x|] eqn:Eb.
  - rewrite (writeLoop_sticky _ _ _ _ _ Eb). unfold bufio.writeTail. rewrite Eb.
    intros H; inversion H; subst. apply stepped_sticky; assumption.
  - destruct (bufio.writeLoop direct b s 0%nat) as [[b1 s1] nn1] eqn:L.
    destruct (writeLoop_spec _ _ _ _ _ _ _ L) as ((k & Hk & Hs1 & Hst) & Hh & _).
    unfold bufio.writeTail.
    destruct (bufio.err b1) as [x|] eqn:Eb1; intros H; inversion H; subst; clear H.
    + apply (stepped_failed s b _ x k); assumption.
    + apply stepped_buffered; assumption.
Qed.

Lemma appends_writeString (s : string) : appends s (writeString s).
Proof.
  intros b b' e H. unfold writeString, bufio.WriteString in H.
  exact (writeTail_spec (io.isStringWriter (bufio.wr b)) s b b' e H).
Qed.

Lemma strict_writeString (s : string) : strict (writeString s).
Proof.
  intros b x Hx. unfold writeString, bufio.WriteString.
  rewrite (writeLoop_sticky _ _ _ _ _ Hx). simpl. rewrite Hx. reflexivity.
Qed.

(** A flush before a write: the stream is the same, a healthy writer
    stays healthy. *)
Lemma Flush_keeps (b : bufio.Writer) :
  stream (fst (bufio.Flush b)) = stream b
  /\ (healthy b -> healthy (fst (bufio.Flush b))).
Proof.
  destruct (bufio.Flush b) as [b1 e1] eqn:F.
  destruct (Flush_spec _ _ _ F) as (_ & Hst & Hh & _). split; assumption.
Qed.

Lemma appends_writeByte (c : byte) : appends (str1 c) (writeByte c).
Proof.
  intros b b' e. unfold writeByte, bufio.WriteByte.
  destruct (bufio.err b) as [x|] eqn:Eb.
  - intros H; inversion H; subst. apply stepped_sticky; assumption.
  - set (b1 := if (bufio.Available b <=? 0)%nat then fst (bufio.Flush b) else b).
    assert (F : stream b1 = stream b /\ (healthy b -> healthy b1)).
    { unfold b1. destruct (bufio.Available b <=? 0)%nat; [apply Flush_keeps | auto]. }
    destruct F as [Hst Hh].
    destruct (bufio.err b1) as [x|] eqn:Eb1; intros H; inversion H; subst; clear H.
    + apply (stepped_failed _ b _ x 0); try assumption; [lia|].
      rewrite take_0, app_nil_r. exact Hst.
    + apply stepped_buffered_all; assumption.
Qed.

Lemma strict_writeByte (c : byte) : strict (writeByte c).
Proof.
  intros b x Hx. unfold writeByte, bufio.WriteByte. rewrite Hx. reflexivity.
Qed.

Lemma EncodeRune_ascii (r : rune) :
  (uint32 r <? utf8.RuneSelf) = true -> utf8.EncodeRune r = str1 (z2b r).
Proof.
  intros H. apply Z.ltb_lt in H. unfold utf8.EncodeRune, utf8.RuneSelf, utf8.rune1Max in *.
  destruct (Z.leb_spec (uint32 r) 127); [reflexivity | lia].
Qed.

Lemma appends_writeRune (r : rune) : appends (utf8.EncodeRune r) (writeRune r).
Proof.
  intros b b' e. unfold writeRune, bufio.WriteRune.
  destruct (uint32 r <? utf8.RuneSelf) eqn:A.
  - rewrite (EncodeRune_ascii _ A).
    destruct (bufio.WriteByte b (z2b r)) as [b1 e1] eqn:W.
    pose proof (appends_writeByte (z2b r) b b1 e1 W) as P.
    destruct e1; intros H; inversion H; subst; exact P.
  - destruct (bufio.err b) as [x|] eqn:Eb.
    + intros H; inversion H; subst. apply stepped_sticky; assumption.
    + destruct (bufio.Available b <? utf8.UTFMax)%nat.
      * destruct (Flush_keeps b) as [Hst Hh].
        destruct (bufio.err (fst (bufio.Flush b))) as [x|] eqn:Eb1.
        -- intros H; inversion H; subst; clear H.
           apply (stepped_failed _ b _ x 0); try assumption; [lia|].
           rewrite take_0, app_nil_r. exact Hst.
        -- destruct (bufio.Available (fst (bufio.Flush b)) <? utf8.UTFMax)%nat.
           ++ (* a buffer too small for one rune *)
              destruct (bufio.WriteString (fst (bufio.Flush b)) (utf8.EncodeRune r))
                as [[b2 n2] e2] eqn:W.
              intros H; inversion H; subst; clear H.
              assert (W' : writeString (utf8.EncodeRune r) (fst (bufio.Flush b)) = (b', e))
                by (unfold writeString; rewrite W; reflexivity).
              destruct (appends_writeString _ _ _ _ W')
                as (L & S & H2 & K & (k & Hk & P)).
              unfold stepped. conjs.
              ** exact L.
              ** intros _ Ee. rewrite <- Hst. apply S; assumption.
              ** intros Hb. apply H2, Hh, Hb.
              ** intros y Hy. congruence.
              ** exists k. rewrite <- Hst. split; assumption.
           ++ intros H. inversion H; subst.
              apply stepped_buffered_all; assumption.
      * intros H. inversion H; subst.
        apply stepped_buffered_all; auto.
Qed.

Lemma strict_writeRune (r : rune) : strict (writeRune r).
Proof.
  intros b x Hx. unfold writeRune, bufio.WriteRune, bufio.WriteByte. rewrite Hx.
  destruct (uint32 r <? utf8.RuneSelf); reflexivity.
Qed.

(** ** The quoted field *)

Lemma escape_app (useCRLF : bool) (s t : string) :
  escape useCRLF (s ++ t) = escape useCRLF s ++ escape useCRLF t.
Proof.
  induction s as [|c s IH]; simpl; [reflexivity|].
  rewrite IH, app_assoc. reflexivity.
Qed.

Lemma escape_plain (useCRLF : bool) (s : string) :
  anyByte (strings.hasByte specials) s = false -> escape useCRLF s = s.
Proof.
  induction s as [|c s IH]; cbn [anyByte escape]; [reflexivity|].
  destruct (strings.hasByte specials c) eqn:Hc; [discriminate|].
  intros H. rewrite (IH H). unfold escapeByte.
  unfold specials in Hc. simpl in Hc.
  destruct (Ascii.eqb c DQ); [discriminate|].
  destruct (Ascii.eqb c CR); [discriminate|].
  destruct (Ascii.eqb c LF); [discriminate|]. reflexivity.
Qed.

(** [IndexAny] finds the first special byte. *)
Lemma IndexAny_spec (s chars : string) :
  (strings.IndexAny s chars = -1 /\ anyByte (strings.hasByte chars) s = false)
  \/ (exists i : nat,
        strings.IndexAny s chars = Z.of_nat i /\ (i < len s)%nat
        /\ anyByte (strings.hasByte chars) (take i s) = false
        /\ strings.hasByte chars (at0 (drop i s)) = true).
Proof.
  induction s as [|c s IH]; simpl; [left; auto|].
  destruct (strings.hasByte chars c) eqn:Hc.
  - right. exists 0%nat. unfold len; simpl. conjs; auto; lia.
  - destruct IH as [[E N] | (i & E & L & N & A)].
    + left. rewrite E. simpl. auto.
    + right. exists (S i). rewrite E.
      destruct (Z.ltb_spec (Z.of_nat i) 0); [lia|].
      unfold len in *; simpl. rewrite Hc. conjs; auto; lia.
Qed.

Lemma nextSpecial_spec (field : string) :
  (nextSpecial field <= len field)%nat
  /\ anyByte (strings.hasByte specials) (take (nextSpecial field) field) = false
  /\ ((nextSpecial field < len field)%nat ->
      strings.hasByte specials (at0 (drop (nextSpecial field) field)) = true).
Proof.
  unfold nextSpecial.
  destruct (IndexAny_spec field specials) as [[E N] | (i & E & L & N & A)];
    rewrite E.
  - simpl. rewrite Nat2Z.id, take_all by lia. conjs; [lia | assumption | lia].
  - destruct (Z.ltb_spec (Z.of_nat i) 0); [lia|]. rewrite Nat2Z.id.
    conjs; [lia | assumption | auto].
Qed.

Lemma appends_encodeSpecial (useCRLF : bool) (c : byte) :
  strings.hasByte specials c = true ->
  appends (escapeByte useCRLF c) (encodeSpecial useCRLF c).
Proof.
  intros H. unfold escapeByte, encodeSpecial.
  destruct (Ascii.eqb c DQ) eqn:Edq; [apply appends_writeString|].
  destruct (Ascii.eqb c CR) eqn:Ecr.
  - destruct useCRLF; simpl; [apply appends_skip | apply appends_writeByte].
  - destruct (Ascii.eqb c LF) eqn:Elf.
    + destruct useCRLF; [apply appends_writeString | apply appends_writeByte].
    + unfold specials in H; simpl in H.
      rewrite Edq, Ecr, Elf in H. discriminate.
Qed.

Lemma split_at0 (s : string) : (0 < len s)%nat -> s = String (at0 s) (drop 1 s).
Proof. destruct s; unfold len; simpl; [lia | reflexivity]. Qed.

Lemma appends_quotedBody (useCRLF : bool) (field : string) :
  appends (escape useCRLF field) (quotedBody useCRLF field).
Proof.
  funelim (quotedBody useCRLF field); clear Heqcall; clear_funelim.
  - (* the field is empty *)
    apply Nat.ltb_ge in e. assert (E : field = "") by (apply len_0; lia). subst.
    apply appends_skip.
  - (* a special character at [nextSpecial field] *)
    destruct (nextSpecial_spec field) as (Hle & Hplain & Hsp).
    apply Nat.ltb_lt in e0. rewrite len_drop in e0.
    specialize (Hsp ltac:(lia)).
    rewrite <- (take_drop (nextSpecial field) field) at 1.
    rewrite escape_app, (escape_plain _ _ Hplain).
    rewrite (split_at0 (drop (nextSpecial field) field)) at 1
      by (rewrite len_drop; lia).
    cbn [escape].
    apply appends_andThen; [apply appends_writeString|].
    apply appends_andThen; [apply appends_encodeSpecial; assumption |].
    match goal with IH : bufio.Writer -> appends _ _ |- _ =>
      exact (IH (bufio.NewWriter (Builder ""))) end.
  - (* no special character left *)
    destruct (nextSpecial_spec field) as (Hle & Hplain & _).
    rewrite <- (take_drop (nextSpecial field) field) at 1.
    rewrite escape_app, (escape_plain _ _ Hplain).
    apply appends_andThen; [apply appends_writeString |].
    match goal with IH : bufio.Writer -> appends _ _ |- _ =>
      exact (IH (bufio.NewWriter (Builder ""))) end.
Qed.

(** ** One field, the fields of a record, the record *)

Lemma appends_writeField (sw : SafeWriter) (field : string) :
  appends (encodeField sw field) (writeField sw field).
Proof.
  unfold encodeField, writeField. cbv zeta.
  destruct (fieldNeedsQuotes sw (sanitize (opts sw) field)); cbn [negb].
  - unfold quoted. change (String DQ ?s) with (str1 DQ ++ s).
    apply appends_andThen; [apply appends_writeByte|].
    apply appends_andThen; [apply appends_quotedBody | apply appends_writeByte].
  - apply appends_writeString.
Qed.

Lemma joinFields_cons (sep f : string) (rest : list string) :
  joinFields sep (f :: rest) = f ++ delimited sep rest.
Proof.
  revert f; induction rest as [|g rest IH]; intros f.
  - simpl. rewrite app_nil_r. reflexivity.
  - change (joinFields sep (f :: g :: rest))
      with (f ++ sep ++ joinFields sep (g :: rest)).
    rewrite (IH g). reflexivity.
Qed.

Lemma appends_writeFields_next (sw : SafeWriter) (n : nat) (record : list string) :
  appends (delimited (utf8.EncodeRune (Comma sw)) (map (encodeField sw) record))
          (writeFields sw (S n) record).
Proof.
  revert n; induction record as [|f rest IH]; intros n; cbn [writeFields map delimited].
  - apply appends_skip.
  - change (0 <? S n)%nat with true. cbv iota.
    apply appends_andThen; [apply appends_writeRune|].
    apply appends_andThen; [apply appends_writeField | apply IH].
Qed.

Lemma appends_writeFields (sw : SafeWriter) (record : list string) :
  appends (joinFields (utf8.EncodeRune (Comma sw)) (map (encodeField sw) record))
          (writeFields sw 0 record).
Proof.
  destruct record as [|f rest]; [apply appends_skip|].
  cbn [map]. rewrite joinFields_cons. cbn [writeFields].
  change (0 <? 0)%nat with false. cbv iota.
  change (encodeField sw f ++ ?t) with ("" ++ encodeField sw f ++ t).
  apply appends_andThen; [apply appends_skip|].
  apply appends_andThen; [apply appends_writeField | apply appends_writeFields_next].
Qed.

Lemma appends_writeTerminator (sw : SafeWriter) :
  appends (terminator (UseCRLF sw)) (writeTerminator sw).
Proof.
  unfold terminator, writeTerminator.
  destruct (UseCRLF sw); [apply appends_writeString | apply appends_writeByte].
Qed.

Lemma strict_writeTerminator (sw : SafeWriter) : strict (writeTerminator sw).
Proof.
  unfold writeTerminator.
  destruct (UseCRLF sw); [apply strict_writeString | apply strict_writeByte].
Qed.

Lemma appends_record (sw : SafeWriter) (record : list string) :
  appends (encodeRecord sw record) (writeFields sw 0 record ;; writeTerminator sw).
Proof.
  unfold encodeRecord.
  apply appends_andThen; [apply appends_writeFields | apply appends_writeTerminator].
Qed.

Lemma strict_record (sw : SafeWriter) (record : list string) :
  strict (writeFields sw 0 record ;; writeTerminator sw).
Proof.
  eapply strict_andThen_r; [apply appends_writeFields | apply strict_writeTerminator].
Qed.

(** With a valid delimiter, [Write] runs the fields and the terminator
    on its buffered writer and changes nothing else. *)
Lemma Write_valid (sw : SafeWriter) (record : list string) :
  validDelim (Comma sw) = true ->
  Write sw record =
  (withW sw (fst ((writeFields sw 0 record ;; writeTerminator sw) (w sw))),
   snd ((writeFields sw 0 record ;; writeTerminator sw) (w sw))).
Proof.
  intros V. unfold Write. rewrite V. cbn [negb].
  destruct ((writeFields sw 0 record ;; writeTerminator sw) (w sw)); reflexivity.
Qed.

(** The record writer, in general: the error returned is the sticky
    error left behind; success means the whole record is in the stream;
    a healthy writer succeeds; in every case a prefix of the record and
    nothing else has been written. *)
Lemma Write_spec (sw : SafeWriter) (record : list string) :
  validDelim (Comma sw) = true ->
  forall sw' e, Write sw record = (sw', e) ->
    sw' = withW sw (w sw')
    /\ bufio.err (w sw') = e
    /\ (e = None -> output sw' = output sw ++ encodeRecord sw record)
    /\ (healthy (w sw) -> e = None /\ healthy (w sw'))
    /\ (exists k, (k <= len (encodeRecord sw record))%nat
                  /\ output sw' = output sw ++ take k (encodeRecord sw record)).
Proof.
  intros V sw' e H. rewrite (Write_valid _ _ V) in H.
  destruct ((writeFields sw 0 record ;; writeTerminator sw) (w sw)) as [b' e'] eqn:R.
  cbn [fst snd] in H. inversion H; subst; clear H.
  pose proof (appends_strict_latch _ _ (appends_record sw record)
                (strict_record sw record) _ _ _ R) as Latch.
  destruct (appends_record sw record _ _ _ R) as (L & S & Hh & K & P).
  unfold output. cbn [w withW]. conjs.
  - reflexivity.
  - exact Latch.
  - intros ->. apply S; [|reflexivity].
    destruct (bufio.err (w sw)) as [x|] eqn:Eb; [|reflexivity].
    pose proof (strict_record sw record _ _ Eb) as St. rewrite R in St. discriminate.
  - exact Hh.
  - exact P.
Qed.

(** ** The delimiter *)

Lemma validDelim_iff (r : rune) :
  validDelim r = true <->
  (r <> 0 /\ r <> 34 /\ r <> 13 /\ r <> 10
   /\ ((0 <= r < 0xD800) \/ (0xDFFF < r <= 0x10FFFF))
   /\ r <> 0xFFFD).
Proof.
  unfold validDelim, utf8.ValidRune, utf8.surrogateMin, utf8.surrogateMax,
    utf8.MaxRune, utf8.RuneError.
  change (lit DQ) with 34. change (lit CR) with 13. change (lit LF) with 10.
  split.
  - intros H. repeat (apply andb_prop in H; destruct H as [H ?]).
    repeat match goal with
           | E : negb (_ =? _) = true |- _ =>
             apply negb_true_iff in E; apply Z.eqb_neq in E
           end.
    conjs; try assumption.
    destruct ((0 <=? r) && (r <? 55296)) eqn:A.
    + apply andb_prop in A as [A1 A2]. left. lia.
    + destruct ((57343 <? r) && (r <=? 1114111)) eqn:B; [|discriminate].
      apply andb_prop in B as [B1 B2]. right. lia.
  - intros (H0 & H1 & H2 & H3 & Hv & H4).
    repeat (apply andb_true_intro; split);
      try (apply negb_true_iff; apply Z.eqb_neq; assumption).
    destruct Hv as [Hv|Hv].
    + replace ((0 <=? r) && (r <? 55296)) with true; [reflexivity|].
      symmetry. apply andb_true_intro. split; lia.
    + destruct ((0 <=? r) && (r <? 55296)); [reflexivity|].
      replace ((57343 <? r) && (r <=? 1114111)) with true; [reflexivity|].
      symmetry. apply andb_true_intro. split; lia.
Qed.

Lemma Write_invalid (sw : SafeWriter) (record : list string) :
  validDelim (Comma sw) = false -> Write sw record = (sw, Some errInvalidDelim).
Proof. intros V. unfold Write. rewrite V. reflexivity. Qed.

(** C7. A rune is accepted as delimiter exactly when it is not NUL, not
    the double quote, not CR, not LF, a valid code point (no surrogate,
    at most U+10FFFF) and not the replacement character; semicolon, tab
    and vertical bar are accepted; and with an invalid delimiter every
    [Write] returns [errInvalidDelim] and leaves the writer, hence its
    output, untouched. *)
Theorem validDelim_spec :
  (forall r : rune,
      validDelim r = true <->
      (r <> 0 /\ r <> lit DQ /\ r <> lit CR /\ r <> lit LF
       /\ ((0 <= r < 0xD800) \/ (0xDFFF < r <= 0x10FFFF))
       /\ r <> 0xFFFD))
  /\ validDelim (lit ";") = true
  /\ validDelim (lit TAB) = true
  /\ validDelim (lit "|") = true
  /\ (forall (sw : SafeWriter) (record : list string),
         validDelim (Comma sw) = false ->
         Write sw record = (sw, Some errInvalidDelim)
         /\ output (fst (Write sw record)) = output sw).
Proof.
  conjs; try reflexivity.
  - exact validDelim_iff.
  - intros sw record V. rewrite (Write_invalid _ _ V). split; reflexivity.
Qed.

Lemma validDelim_spec_witness :
  Write (freshWriter (lit DQ) false EscapeAll) ["a"; "b"]
  = (freshWriter (lit DQ) false EscapeAll, Some errInvalidDelim).
Proof.
  destruct validDelim_spec as (_ & _ & _ & _ & H).
  apply (H (freshWriter (lit DQ) false EscapeAll) ["a"; "b"]).
  reflexivity.
Defined.

(** ** The empty record *)

(** C10. With a valid delimiter, writing a record with no field writes
    the line terminator and nothing else: when [Write] returns no error
    the output has grown by exactly LF (CR LF in CRLF mode), whatever
    the policy; on a healthy writer it returns no error; and in no case
    is anything but a prefix of the terminator written. *)
Theorem Write_empty_record (sw : SafeWriter) :
  validDelim (Comma sw) = true ->
  forall sw' e, Write sw [] = (sw', e) ->
    (e = None ->
     output sw' = output sw
                  ++ (if UseCRLF sw then String CR (String LF "") else String LF ""))
    /\ (healthy (w sw) -> e = None)
    /\ (exists k, output sw' = output sw
          ++ take k (if UseCRLF sw then String CR (String LF "") else String LF "")).
Proof.
  intros V sw' e H.
  destruct (Write_spec sw [] V sw' e H) as (_ & _ & S & Hh & (k & _ & P)).
  conjs.
  - exact S.
  - intros Hb. apply Hh; assumption.
  - exists k. exact P.
Qed.

Lemma Write_empty_record_witness :
  output (fst (Write (freshWriter (lit ",") true FullSafety) []))
  = String CR (String LF "").
Proof.
  destruct (Write (freshWriter (lit ",") true FullSafety) []) as [sw' e] eqn:E.
  destruct (Write_empty_record (freshWriter (lit ",") true FullSafety)
              eq_refl _ _ E) as (S & Hh & _).
  apply S. apply Hh. split; reflexivity.
Defined.

(** ** Sanitizing *)

Lemma sanitize_fires (o : SafetyOpts) (field : string) :
  sanitize o field =
  match field with
  | "" => ""
  | String c _ => if fires o c then String " " field else field
  end.
Proof.
  destruct field as [|c rest]; [reflexivity|].
  unfold sanitize, fires. change (0 <? len (String c rest))%nat with true.
  cbn [at0 append].
  destruct (EscapeCharEqual o && Ascii.eqb c "="); [reflexivity|].
  destruct (EscapeCharPlus o && Ascii.eqb c "+"); [reflexivity|].
  destruct (EscapeCharMinus o && Ascii.eqb c "-"); [reflexivity|].
  destruct (EscapeCharAt o && Ascii.eqb c "@"); [reflexivity|].
  destruct (EscapeCharTab o && Ascii.eqb c TAB); [reflexivity|].
  destruct (EscapeCharCR o && Ascii.eqb c LF); reflexivity.
Qed.

Lemma fires_iff (o : SafetyOpts) (c : byte) :
  fires o c = true <->
  ((c = "="%char /\ EscapeCharEqual o = true)
   \/ (c = "+"%char /\ EscapeCharPlus o = true)
   \/ (c = "-"%char /\ EscapeCharMinus o = true)
   \/ (c = "@"%char /\ EscapeCharAt o = true)
   \/ (c = TAB /\ EscapeCharTab o = true)
   \/ (c = LF /\ EscapeCharCR o = true)).
Proof.
  unfold fires. rewrite !orb_true_iff, !andb_true_iff, !Ascii.eqb_eq. tauto.
Qed.

Lemma String_neq_cons (c : ascii) (s : string) : String c s <> s.
Proof.
  intros H. apply (f_equal String.length) in H. simpl in H. lia.
Qed.

(** C5. Sanitizing looks at the first byte only and returns the field or
    the field behind one space (one byte longer); the space is there
    exactly when the field is not empty and its first byte is [=], [+],
    [-], [@], tab or line feed with the switch of that character
    enabled, so that at most one space is added whatever the number of
    enabled switches; and the switch [EscapeCharCR] matches the line
    feed, not the carriage return. *)
Theorem sanitize_spec (o : SafetyOpts) (field : string) :
  (sanitize o field = field
   \/ (sanitize o field = String " " field
       /\ len (sanitize o field) = S (len field)))
  /\ (sanitize o field = String " " field <->
      exists c rest,
        field = String c rest
        /\ ((c = "="%char /\ EscapeCharEqual o = true)
            \/ (c = "+"%char /\ EscapeCharPlus o = true)
            \/ (c = "-"%char /\ EscapeCharMinus o = true)
            \/ (c = "@"%char /\ EscapeCharAt o = true)
            \/ (c = TAB /\ EscapeCharTab o = true)
            \/ (c = LF /\ EscapeCharCR o = true)))
  /\ (forall c rest rest',
         sanitize o (String c rest) = String " " (String c rest) <->
         sanitize o (String c rest') = String " " (String c rest'))
  /\ (forall rest,
         sanitize onlyCR (String LF rest) = String " " (String LF rest)
         /\ sanitize onlyCR (String CR rest) = String CR rest).
Proof.
  conjs.
  - rewrite sanitize_fires. destruct field as [|c rest]; [left; reflexivity|].
    destruct (fires o c); [right | left]; auto.
  - rewrite sanitize_fires. destruct field as [|c rest].
    + split; [intros H; discriminate | intros (c & rest & H & _); discriminate].
    + destruct (fires o c) eqn:F.
      * split; [intros _ | reflexivity].
        exists c, rest. split; [reflexivity | apply fires_iff; exact F].
      * split.
        -- intros H. symmetry in H. apply String_neq_cons in H. contradiction.
        -- intros (c' & rest' & H & D). inversion H; subst.
           apply fires_iff in D. congruence.
  - intros c rest rest'. rewrite !sanitize_fires.
    destruct (fires o c); split; intros H; try reflexivity;
      symmetry in H; apply String_neq_cons in H; contradiction.
  - intros rest. split; reflexivity.
Qed.

(** ** Sanitized fields are quoted *)

Lemma fieldNeedsQuotes_space (sw : SafeWriter) (s : string) :
  fieldNeedsQuotes sw (String " " s) = true.
Proof.
  unfold fieldNeedsQuotes.
  change (String.eqb (String " " s) "") with false.
  change (String.eqb (String " " s) endOfData) with false. cbv iota.
  destruct (ForceDoubleQuotes (opts sw)); [reflexivity|].
  match goal with |- (if ?c then true else _) = true => destruct c end;
    reflexivity.
Qed.

(** C9. When a switch of the policy fires on the first byte of a field,
    the sanitized field starts with a space, [fieldNeedsQuotes] answers
    true for it, and the field is written between quotes: on a healthy
    writer [Write]'s field step returns no error and appends the quoted,
    escaped, space-prefixed field. *)
Theorem sanitized_field_quoted (sw : SafeWriter) (c : byte) (rest : string) :
  fires (opts sw) c = true ->
  sanitize (opts sw) (String c rest) = String " " (String c rest)
  /\ fieldNeedsQuotes sw (sanitize (opts sw) (String c rest)) = true
  /\ encodeField sw (String c rest)
     = String DQ (escape (UseCRLF sw) (String " " (String c rest)) ++ String DQ "")
  /\ (forall b b' e,
         writeField sw (String c rest) b = (b', e) ->
         healthy b ->
         e = None
         /\ stream b' = stream b
              ++ String DQ (escape (UseCRLF sw) (String " " (String c rest))
                            ++ String DQ "")).
Proof.
  intros F.
  assert (S : sanitize (opts sw) (String c rest) = String " " (String c rest))
    by (rewrite sanitize_fires, F; reflexivity).
  assert (Q : fieldNeedsQuotes sw (sanitize (opts sw) (String c rest)) = true)
    by (rewrite S; apply fieldNeedsQuotes_space).
  assert (E : encodeField sw (String c rest)
              = String DQ (escape (UseCRLF sw) (String " " (String c rest))
                           ++ String DQ "")).
  { unfold encodeField. cbv zeta. rewrite Q, S. reflexivity. }
  conjs; try assumption.
  intros b b' e W Hb.
  destruct (appends_writeField sw (String c rest) _ _ _ W) as (_ & St & Hh & _).
  destruct (Hh Hb) as [-> _]. split; [reflexivity|].
  rewrite <- E. apply St; [apply Hb | reflexivity].
Qed.

Lemma sanitized_field_quoted_witness :
  encodeField (freshWriter (lit ",") false EscapeAll) "=A1"
  = String DQ (" =A1" ++ String DQ "").
Proof.
  destruct (sanitized_field_quoted (freshWriter (lit ",") false EscapeAll)
              "="%char "A1" eq_refl) as (_ & _ & E & _).
  exact E.
Defined.

(** ** The quoted field, as written *)

Lemma escapeByte_cases (useCRLF : bool) (c : byte) :
  escapeByte useCRLF DQ = String DQ (String DQ "")
  /\ escapeByte useCRLF CR = (if useCRLF then "" else String CR "")
  /\ escapeByte useCRLF LF
     = (if useCRLF then String CR (String LF "") else String LF "")
  /\ (c <> DQ -> c <> CR -> c <> LF -> escapeByte useCRLF c = String c "").
Proof.
  conjs; try reflexivity.
  intros H1 H2 H3. unfold escapeByte.
  apply Ascii.eqb_neq in H1, H2, H3. rewrite H1, H2, H3. reflexivity.
Qed.

(** C6. A field that [fieldNeedsQuotes] decides to quote is written as a
    double quote, the bytes of the (sanitized) field in order, each one
    replaced by its image under [escapeByte], and a double quote; the
    image of a double quote is two double quotes, of CR nothing in CRLF
    mode and CR otherwise, of LF the pair CR LF in CRLF mode and LF
    otherwise, and of any other byte the byte itself.  On a healthy
    writer the step returns no error, and whenever it returns no error
    from a writer without error these are exactly the bytes added. *)
Theorem quoted_field_bytes (sw : SafeWriter) (field : string) :
  fieldNeedsQuotes sw (sanitize (opts sw) field) = true ->
  (forall b b' e,
      writeField sw field b = (b', e) ->
      (healthy b -> e = None)
      /\ (bufio.err b = None -> e = None ->
          stream b' = stream b
            ++ String DQ (escape (UseCRLF sw) (sanitize (opts sw) field)
                          ++ String DQ "")))
  /\ (forall c s,
         escape (UseCRLF sw) (String c s)
         = escapeByte (UseCRLF sw) c ++ escape (UseCRLF sw) s)
  /\ escape (UseCRLF sw) "" = ""
  /\ escapeByte (UseCRLF sw) DQ = String DQ (String DQ "")
  /\ escapeByte (UseCRLF sw) CR = (if UseCRLF sw then "" else String CR "")
  /\ escapeByte (UseCRLF sw) LF
     = (if UseCRLF sw then String CR (String LF "") else String LF "")
  /\ (forall c, c <> DQ -> c <> CR -> c <> LF ->
                escapeByte (UseCRLF sw) c = String c "").
Proof.
  intros Q. conjs; try reflexivity.
  - intros b b' e W.
    destruct (appends_writeField sw field _ _ _ W) as (_ & St & Hh & _).
    assert (E : encodeField sw field
                = String DQ (escape (UseCRLF sw) (sanitize (opts sw) field)
                             ++ String DQ "")).
    { unfold encodeField. cbv zeta. rewrite Q. reflexivity. }
    rewrite <- E. split.
    + intros Hb. apply Hh; assumption.
    + intros Eb Ee. apply St; assumption.
  - intros c. apply (escapeByte_cases (UseCRLF sw) c).
Qed.

Lemma quoted_field_bytes_witness :
  stream (fst (writeField (freshWriter (lit ",") true EscapeAll)
                 (String "a" (String DQ (String CR (String LF "b"))))
                 (bufio.NewWriter (Builder ""))))
  = String DQ (String "a" (String DQ (String DQ (String CR (String LF "b"))))
               ++ String DQ "").
Proof.
  destruct (writeField (freshWriter (lit ",") true EscapeAll)
              (String "a" (String DQ (String CR (String LF "b"))))
              (bufio.NewWriter (Builder ""))) as [b' e] eqn:W.
  destruct (quoted_field_bytes (freshWriter (lit ",") true EscapeAll)
              (String "a" (String DQ (String CR (String LF "b")))) eq_refl)
    as (H & _).
  destruct (H _ _ _ W) as (Hh & St).
  apply (St eq_refl). apply Hh. split; reflexivity.
Defined.

(** ** The scenario with the single switch [EscapeCharEqual] *)

(** C1, as stated, fails: the writer configured with the comma, LF mode
    and the single switch [EscapeCharEqual] does not produce the line
    whose second field is the unquoted [ =A1]. *)
Lemma scenario_unquoted_refuted :
  output (fst (Write (freshWriter (lit ",") false onlyEqual) scenarioRecord))
  <> scenarioLineUnquoted.
Proof. vm_compute. intros H. discriminate H. Qed.

(** C1, amended. With the comma, LF mode and the single switch
    [EscapeCharEqual], writing the record [userId], [=A1], [foo, bar] on
    a healthy writer returns no error and appends exactly the line
    [userId," =A1","foo, bar"] and a line feed: the sanitized second
    field starts with a space and is therefore quoted. *)
Theorem scenario_quoted (sw : SafeWriter) :
  Comma sw = lit "," -> UseCRLF sw = false -> opts sw = onlyEqual ->
  healthy (w sw) ->
  forall sw' e, Write sw scenarioRecord = (sw', e) ->
    e = None /\ output sw' = output sw ++ scenarioLine.
Proof.
  intros C U O Hb sw' e W.
  assert (V : validDelim (Comma sw) = true) by (rewrite C; reflexivity).
  destruct (Write_spec sw scenarioRecord V sw' e W) as (_ & _ & S & Hh & _).
  destruct (Hh Hb) as [-> _]. split; [reflexivity|].
  rewrite (S eq_refl). f_equal.
  unfold encodeRecord, encodeField, scenarioRecord. cbv zeta.
  destruct sw as [comma crlf b o]. cbn [Comma UseCRLF opts] in *. subst.
  reflexivity.
Qed.

Lemma scenario_quoted_witness :
  output (fst (Write (freshWriter (lit ",") false onlyEqual) scenarioRecord))
  = scenarioLine.
Proof.
  destruct (Write (freshWriter (lit ",") false onlyEqual) scenarioRecord)
    as [sw' e] eqn:W.
  destruct (scenario_quoted (freshWriter (lit ",") false onlyEqual)
              eq_refl eq_refl eq_refl (conj eq_refl eq_refl) _ _ W) as [_ H].
  exact H.
Defined.

(** ** The sticky error *)

(** [Error] reads the sticky error of the buffered writer. *)
Lemma Error_reads_sticky (sw : SafeWriter) :
  snd (Error sw) = bufio.err (w sw).
Proof.
  unfold Error, bufio.Write.
  assert (C : bufio.loopCond (w sw) "" = false).
  { unfold bufio.loopCond. change (len "") with 0%nat.
    rewrite (proj2 (Nat.ltb_ge _ _)) by lia. reflexivity. }
  rewrite (writeLoop_done _ _ _ _ C). unfold bufio.writeTail.
  destruct (bufio.err (w sw)); reflexivity.
Qed.

(** Every error that [Write] returns after a valid delimiter comes from
    the buffered writer and is latched: [Error] returns it afterwards. *)
Lemma Write_io_error_latched (sw : SafeWriter) (record : list string) :
  validDelim (Comma sw) = true ->
  forall sw' x, Write sw record = (sw', Some x) -> snd (Error sw') = Some x.
Proof.
  intros V sw' x W. rewrite Error_reads_sticky.
  destruct (Write_spec sw record V sw' _ W) as (_ & L & _). exact L.
Qed.

(** C3, at the failing input.  A fresh writer whose delimiter is the
    double quote: [Write] returns [errInvalidDelim], and the following
    [Error] returns [nil]; the error of the record write is not latched. *)
Theorem invalid_delim_not_latched :
  snd (Write (freshWriter (lit DQ) false EscapeAll) ["a"; "b"])
  = Some errInvalidDelim
  /\ snd (Error (fst (Write (freshWriter (lit DQ) false EscapeAll) ["a"; "b"])))
     = None.
Proof. split; reflexivity. Qed.

(** ** WriteAll *)

Lemma WriteAll_written (sw : SafeWriter) (records : list (list string)) (sw1 : SafeWriter) :
  written_all sw records sw1 ->
  WriteAll sw records
  = (withW sw1 (fst (bufio.Flush (w sw1))), snd (bufio.Flush (w sw1))).
Proof.
  induction 1 as [sw | sw sw1 sw2 record rest W _ IH]; cbn [WriteAll].
  - destruct (bufio.Flush (w sw)); reflexivity.
  - rewrite W. exact IH.
Qed.

Lemma WriteAll_failed (sw : SafeWriter) (pre : list (list string))
      (record : list string) (post : list (list string))
      (sw1 sw2 : SafeWriter) (x : error) :
  written_all sw pre sw1 ->
  Write sw1 record = (sw2, Some x) ->
  WriteAll sw (pre ++ record :: post) = (sw2, Some x).
Proof.
  induction 1 as [sw | sw sw1 sw3 r rest W _ IH]; intros F; cbn [WriteAll app].
  - rewrite F. reflexivity.
  - rewrite W. apply IH; assumption.
Qed.

(** The two ways through the loop of [WriteAll]: it leaves at the first
    record whose [Write] returns an error, or it reaches the flush. *)
Lemma WriteAll_cases (sw : SafeWriter) (records : list (list string)) :
  (exists pre record post sw1 sw2 x,
      records = (pre ++ record :: post)%list
      /\ written_all sw pre sw1
      /\ Write sw1 record = (sw2, Some x)
      /\ WriteAll sw records = (sw2, Some x))
  \/ (exists sw1,
         written_all sw records sw1
         /\ WriteAll sw records
            = (withW sw1 (fst (bufio.Flush (w sw1))),
               snd (bufio.Flush (w sw1)))).
Proof.
  revert sw. induction records as [|record rest IH]; intros sw.
  - right. exists sw. split; [constructor | apply WriteAll_written; constructor].
  - destruct (Write sw record) as [sw1 [x|]] eqn:W.
    + left. exists [], record, rest, sw, sw1, x.
      conjs; [reflexivity | constructor | exact W |].
      cbn [WriteAll]. rewrite W. reflexivity.
    + destruct (IH sw1) as [(pre & r & post & sa & sb & x & E & P & F & R)
                           | (sa & P & R)].
      * left. exists (record :: pre), r, post, sa, sb, x.
        conjs; [rewrite E; reflexivity | econstructor; eassumption | exact F |].
        cbn [WriteAll]. rewrite W. exact R.
      * right. exists sa.
        split; [econstructor; eassumption|].
        cbn [WriteAll]. rewrite W. exact R.
Qed.


(** ** The quoting decision *)

Lemma HasPrefix_iff (s sub : string) :
  strings.HasPrefix s sub = true <-> exists post, s = sub ++ post.
Proof.
  revert s; induction sub as [|p sub IH]; intros s.
  - destruct s; simpl; (split; [intros _; eexists; reflexivity | reflexivity]).
  - destruct s as [|c s]; cbn [strings.HasPrefix].
    + split; [discriminate | intros (post & H); discriminate].
    + rewrite andb_true_iff, Ascii.eqb_eq, IH. split.
      * intros (-> & post & ->). exists post. reflexivity.
      * intros (post & H). inversion H; subst. split; [reflexivity|].
        exists post. reflexivity.
Qed.

Lemma Index_nonneg (s sub : string) : -1 <= strings.Index s sub.
Proof.
  induction s as [|c s IH]; cbn [strings.Index];
    destruct (strings.HasPrefix _ sub); try lia.
  destruct (Z.ltb_spec (strings.Index s sub) 0); lia.
Qed.

Lemma Index_Contains (s sub : string) :
  0 <= strings.Index s sub <-> Contains s sub.
Proof.
  unfold Contains. induction s as [|c s IH]; cbn [strings.Index].
  - destruct (strings.HasPrefix "" sub) eqn:P.
    + apply HasPrefix_iff in P as (post & P). split; [intros _ | lia].
      exists "", post. exact P.
    + split; [lia|]. intros (pre & post & H).
      destruct pre; [|discriminate]. simpl in H.
      assert (P' : strings.HasPrefix "" sub = true)
        by (apply HasPrefix_iff; exists post; exact H).
      congruence.
  - destruct (strings.HasPrefix (String c s) sub) eqn:P.
    + apply HasPrefix_iff in P as (post & P). split; [intros _ | lia].
      exists "", post. exact P.
    + pose proof (Index_nonneg s sub) as N.
      destruct (Z.ltb_spec (strings.Index s sub) 0) as [L|L].
      * split; [lia|]. intros (pre & post & H). destruct pre as [|d pre].
        -- assert (P' : strings.HasPrefix (String c s) sub = true)
             by (apply HasPrefix_iff; exists post; exact H).
           congruence.
        -- inversion H; subst.
           assert (0 <= strings.Index (pre ++ sub ++ post) sub)
             by (apply IH; exists pre, post; reflexivity).
           lia.
      * split; [intros _ | lia].
        destruct (proj1 IH L) as (pre & post & H).
        exists (String c pre), post. rewrite H. reflexivity.
Qed.

(** The byte loop finds a byte that satisfies the test. *)
Lemma anyByte_iff (p : byte -> bool) (s : string) :
  anyByte p s = true <-> exists c, p c = true /\ Contains s (str1 c).
Proof.
  unfold Contains. induction s as [|c s IH]; cbn [anyByte].
  - split; [discriminate|]. intros (c & _ & pre & post & H).
    destruct pre; discriminate.
  - destruct (p c) eqn:Pc.
    + split; [intros _ | reflexivity]. exists c. split; [exact Pc|].
      exists "", s. reflexivity.
    + rewrite IH. split.
      * intros (d & Pd & pre & post & H). exists d. split; [exact Pd|].
        exists (String c pre), post. rewrite H. reflexivity.
      * intros (d & Pd & pre & post & H). exists d. split; [exact Pd|].
        destruct pre as [|e pre]; simpl in H; inversion H; subst.
        -- congruence.
        -- exists pre, post. reflexivity.
Qed.

Lemma IndexAny_anyByte (s chars : string) :
  strings.ContainsAny s chars = anyByte (strings.hasByte chars) s.
Proof.
  unfold strings.ContainsAny.
  destruct (IndexAny_spec s chars) as [[E N] | (i & E & L & N & A)]; rewrite E.
  - rewrite N. reflexivity.
  - destruct (Z.leb_spec 0 (Z.of_nat i)); [|lia]. symmetry.
    apply anyByte_iff. exists (at0 (drop i s)). split; [exact A|].
    exists (take i s), (drop 1 (drop i s)).
    rewrite <- (take_drop i s) at 1. f_equal.
    apply split_at0. rewrite len_drop. lia.
Qed.

Lemma uint32_small (r : rune) : 0 <= r < 2 ^ 32 -> uint32 r = r.
Proof. intros H. unfold uint32. apply Z.mod_small. exact H. Qed.

Lemma specials_Contains (s : string) :
  anyByte (strings.hasByte specials) s = true <->
  Contains s (str1 DQ) \/ Contains s (str1 CR) \/ Contains s (str1 LF).
Proof.
  rewrite anyByte_iff. unfold specials. cbn [strings.hasByte]. split.
  - intros (c & Pc & H). rewrite !orb_true_iff, !Ascii.eqb_eq in Pc.
    destruct Pc as [->|[->|[->|Pc]]]; [auto | auto | auto | discriminate].
  - intros [H|[H|H]]; [exists DQ | exists CR | exists LF]; split; auto.
Qed.

(** The test on the delimiter and the three special characters, in both
    branches of [fieldNeedsQuotes]. *)
Lemma structural_test (comma : rune) (field : string) :
  validDelim comma = true ->
  (if comma <? utf8.RuneSelf then
     anyByte (fun c => Ascii.eqb c LF || Ascii.eqb c CR || Ascii.eqb c DQ
                       || Ascii.eqb c (z2b comma)) field
   else strings.ContainsRune field comma || strings.ContainsAny field specials)
  = true
  <-> (Contains field (utf8.EncodeRune comma) \/ Contains field (str1 DQ)
       \/ Contains field (str1 CR) \/ Contains field (str1 LF)).
Proof.
  intros V. apply validDelim_iff in V as (_ & _ & _ & _ & Hv & Hre).
  assert (Hr : 0 <= comma <= 0x10FFFF) by lia.
  unfold utf8.RuneSelf. destruct (Z.ltb_spec comma 128) as [A|A].
  - rewrite EncodeRune_ascii
      by (rewrite uint32_small by lia; apply Z.ltb_lt; exact A).
    rewrite anyByte_iff. split.
    + intros (c & Pc & H). rewrite !orb_true_iff, !Ascii.eqb_eq in Pc.
      destruct Pc as [[[->| ->]| ->]| ->]; auto.
    + intros [H|[H|[H|H]]];
        [exists (z2b comma) | exists DQ | exists CR | exists LF];
        (split; [|exact H]); rewrite !orb_true_iff, !Ascii.eqb_eq; auto.
  - rewrite orb_true_iff, IndexAny_anyByte, specials_Contains.
    unfold strings.ContainsRune, strings.IndexRune, utf8.RuneSelf.
    replace ((0 <=? comma) && (comma <? 128)) with false
      by (symmetry; apply andb_false_iff; right; apply Z.ltb_ge; lia).
    replace (comma =? utf8.RuneError) with false
      by (symmetry; apply Z.eqb_neq; exact Hre).
    replace (utf8.ValidRune comma) with true.
    2:{ symmetry. unfold utf8.ValidRune, utf8.surrogateMin, utf8.surrogateMax,
          utf8.MaxRune.
        destruct Hv as [Hv|Hv].
        - replace ((0 <=? comma) && (comma <? 55296)) with true; [reflexivity|].
          symmetry; apply andb_true_intro; split; lia.
        - destruct ((0 <=? comma) && (comma <? 55296)); [reflexivity|].
          replace ((57343 <? comma) && (comma <=? 1114111)) with true; [reflexivity|].
          symmetry; apply andb_true_intro; split; lia. }
    cbn [negb]. rewrite Z.leb_le, Index_Contains. tauto.
Qed.

Lemma eqb_empty (field : string) : field <> "" -> String.eqb field "" = false.
Proof. intros H. apply String.eqb_neq. exact H. Qed.

(** The rules that do not look at the content. *)
Lemma quoting_rules_early (sw : SafeWriter) (field : string) :
  (field = "" -> fieldNeedsQuotes sw field = false)
  /\ (field = endOfData -> fieldNeedsQuotes sw field = true)
  /\ (field <> "" -> field <> endOfData ->
      ForceDoubleQuotes (opts sw) = true -> fieldNeedsQuotes sw field = true).
Proof.
  conjs.
  - intros ->. reflexivity.
  - intros ->. reflexivity.
  - intros N1 N2 F. unfold fieldNeedsQuotes.
    rewrite (eqb_empty _ N1), (proj2 (String.eqb_neq _ _) N2), F. reflexivity.
Qed.

(** The rule on the content, when quoting is not forced. *)
Lemma quoting_rule_content (sw : SafeWriter) (field : string) :
  validDelim (Comma sw) = true ->
  field <> "" -> field <> endOfData ->
  ForceDoubleQuotes (opts sw) = false ->
  (fieldNeedsQuotes sw field = true <->
   (Contains field (utf8.EncodeRune (Comma sw))
    \/ Contains field (str1 DQ)
    \/ Contains field (str1 CR)
    \/ Contains field (str1 LF)
    \/ unicode.IsSpace (fst (utf8.DecodeRuneInString field)) = true)).
Proof.
  intros V N1 N2 F. unfold fieldNeedsQuotes.
  rewrite (eqb_empty _ N1), (proj2 (String.eqb_neq _ _) N2), F.
  pose proof (structural_test (Comma sw) field V) as T.
  match goal with |- (if ?c then true else _) = true <-> _ =>
    destruct c end.
  - split; [intros _ | reflexivity].
    destruct (proj1 T eq_refl) as [H|[H|[H|H]]]; auto.
  - split; [intros H; auto 6|].
    intros [H|[H|[H|[H|H]]]]; try exact H;
      exfalso; assert (X : false = true) by (apply T; auto); discriminate X.
Qed.

(** Why the fourth rule below takes the delimiter as [Write] hands it
    over, accepted by [validDelim].  [fieldNeedsQuotes] is unexported and
    called by [Write] only, after that test.  Called directly with a
    rune that is no code point it compares bytes with [byte(w.Comma)]:
    with -212, truncated to the comma, the field [a,b] would be quoted
    although it holds no encoding of that rune. *)
Remark fieldNeedsQuotes_truncates_delimiter :
  ~ (fieldNeedsQuotes (freshWriter (-212) false noSafety) "a,b" = true <->
     (Contains "a,b" (utf8.EncodeRune (-212))
      \/ Contains "a,b" (str1 DQ)
      \/ Contains "a,b" (str1 CR)
      \/ Contains "a,b" (str1 LF)
      \/ unicode.IsSpace (fst (utf8.DecodeRuneInString "a,b")) = true)).
Proof.
  intros [H _]. specialize (H eq_refl).
  assert (N : forall sub, strings.Index "a,b" sub = -1 -> ~ Contains "a,b" sub).
  { intros sub E C. apply Index_Contains in C. rewrite E in C. lia. }
  destruct H as [H|[H|[H|[H|H]]]];
    [apply N in H | apply N in H | apply N in H | apply N in H | discriminate H];
    try exact H; reflexivity.
Qed.

(** C2.  The quoting decision, in order: the empty field is never
    quoted, forced quoting or not; the two bytes backslash, dot are
    always quoted; any other field is quoted when [ForceDoubleQuotes] is
    set; otherwise, for the delimiters that [Write] lets through, the
    field is quoted exactly when it contains the delimiter, a double
    quote, a carriage return or a line feed, or when its first rune is
    white space. *)
Theorem fieldNeedsQuotes_spec (sw : SafeWriter) (field : string) :
  (field = "" -> fieldNeedsQuotes sw field = false)
  /\ (field = endOfData -> fieldNeedsQuotes sw field = true)
  /\ (field <> "" -> field <> endOfData ->
      ForceDoubleQuotes (opts sw) = true -> fieldNeedsQuotes sw field = true)
  /\ (validDelim (Comma sw) = true ->
      field <> "" -> field <> endOfData ->
      ForceDoubleQuotes (opts sw) = false ->
      (fieldNeedsQuotes sw field = true <->
       (Contains field (utf8.EncodeRune (Comma sw))
        \/ Contains field (str1 DQ)
        \/ Contains field (str1 CR)
        \/ Contains field (str1 LF)
        \/ unicode.IsSpace (fst (utf8.DecodeRuneInString field)) = true))).
Proof.
  destruct (quoting_rules_early sw field) as (R1 & R2 & R3).
  conjs.
  - exact R1.
  - exact R2.
  - exact R3.
  - intros V N1 N2 F. apply quoting_rule_content; assumption.
Qed.

Lemma fieldNeedsQuotes_spec_witness :
  fieldNeedsQuotes (freshWriter (lit ";") false onlyEqual) "a;b" = true.
Proof.
  destruct (fieldNeedsQuotes_spec (freshWriter (lit ";") false onlyEqual) "a;b")
    as (_ & _ & _ & H).
  apply (H eq_refl); try reflexivity; try discriminate.
  left. exists "a", "b". reflexivity.
Defined.

(** ** The bytes of the delimiter *)

Lemma b2z_z2b (x : Z) : b2z (z2b x) = x mod 256.
Proof.
  unfold b2z, z2b.
  assert (H : 0 <= x mod 256 < 256) by (apply Z.mod_pos_bound; lia).
  rewrite N_ascii_embedding by lia. apply Z2N.id. lia.
Qed.

Lemma bit_z2b (x : Z) (n : Z) :
  0 <= n < 8 -> Z.testbit (b2z (z2b x)) n = Z.testbit x n.
Proof.
  intros H. rewrite b2z_z2b. change 256 with (2 ^ 8).
  apply Z.mod_pow2_bits_low. lia.
Qed.

(** A byte with the high bit set is none of quote, CR, LF. *)
Lemma highbit_plain (c : byte) :
  Z.testbit (b2z c) 7 = true -> strings.hasByte specials c = false.
Proof.
  intros H. unfold specials. cbn [strings.hasByte].
  destruct (Ascii.eqb_spec c DQ) as [->|_]; [discriminate H|].
  destruct (Ascii.eqb_spec c CR) as [->|_]; [discriminate H|].
  destruct (Ascii.eqb_spec c LF) as [->|_]; [discriminate H|].
  reflexivity.
Qed.

Lemma bit6_differ (c d : byte) :
  Z.testbit (b2z c) 6 = true -> Z.testbit (b2z d) 6 = false ->
  Ascii.eqb d c = false.
Proof.
  intros Hc Hd. destruct (Ascii.eqb_spec d c) as [->|_]; [congruence | reflexivity].
Qed.

Lemma lead_byte (t x : Z) :
  Z.testbit t 7 = true -> Z.testbit t 6 = true -> isLead (z2b (Z.lor t x)).
Proof.
  intros H7 H6. unfold isLead. rewrite !bit_z2b, !Z.lor_spec, H7, H6 by lia.
  split; reflexivity.
Qed.

Lemma cont_byte (x : Z) :
  isCont (z2b (Z.lor utf8.tx (Z.land x utf8.maskx))).
Proof.
  unfold isCont. rewrite !bit_z2b, !Z.lor_spec, !Z.land_spec by lia.
  split; [reflexivity|]. cbn. apply andb_false_r.
Qed.

Lemma cont_after_lead (c d : byte) :
  isLead c -> isCont d ->
  (strings.hasByte specials d || Ascii.eqb d c) = false.
Proof.
  intros [_ L6] [C7 C6].
  rewrite (highbit_plain _ C7), (bit6_differ _ _ L6 C6). reflexivity.
Qed.

(** The encoded delimiter: a first byte that is none of quote, CR, LF,
    then bytes that are none of these and differ from the first. *)
Lemma sep_shape (comma : rune) :
  validDelim comma = true ->
  exists c0 t,
    utf8.EncodeRune comma = String c0 t
    /\ strings.hasByte specials c0 = false
    /\ anyByte (fun c => strings.hasByte specials c || Ascii.eqb c c0) t = false.
Proof.
  intros V. apply validDelim_iff in V as (N0 & Ndq & Ncr & Nlf & Hv & _).
  assert (Hr : 0 <= comma < 2 ^ 32) by lia.
  unfold utf8.EncodeRune, utf8.encode3. rewrite (uint32_small _ Hr).
  destruct (comma <=? utf8.rune1Max) eqn:A1.
  - apply Z.leb_le in A1. unfold utf8.rune1Max in A1.
    exists (z2b comma), "". conjs; [reflexivity | | reflexivity].
    assert (B : b2z (z2b comma) = comma)
      by (rewrite b2z_z2b; apply Z.mod_small; lia).
    unfold specials. cbn [strings.hasByte].
    destruct (Ascii.eqb_spec (z2b comma) DQ) as [E|_];
      [rewrite E in B; cbn in B; lia|].
    destruct (Ascii.eqb_spec (z2b comma) CR) as [E|_];
      [rewrite E in B; cbn in B; lia|].
    destruct (Ascii.eqb_spec (z2b comma) LF) as [E|_];
      [rewrite E in B; cbn in B; lia|].
    reflexivity.
  - destruct (comma <=? utf8.rune2Max).
    + eexists _, _. split; [reflexivity|].
      pose proof (lead_byte utf8.t2 (b2z (z2b (Z.shiftr comma 6))) eq_refl eq_refl) as L.
      split; [apply highbit_plain, L|].
      cbn [anyByte]. rewrite (cont_after_lead _ _ L (cont_byte _)). reflexivity.
    + destruct ((comma <? utf8.surrogateMin)
                || ((utf8.surrogateMax <? comma) && (comma <=? utf8.rune3Max))).
      * eexists _, _. split; [reflexivity|].
        pose proof (lead_byte utf8.t3 (b2z (z2b (Z.shiftr comma 12))) eq_refl eq_refl) as L.
        split; [apply highbit_plain, L|].
        cbn [anyByte]. rewrite !(cont_after_lead _ _ L (cont_byte _)). reflexivity.
      * destruct ((utf8.rune3Max <? comma) && (comma <=? utf8.MaxRune)).
        -- eexists _, _. split; [reflexivity|].
           pose proof (lead_byte utf8.t4 (b2z (z2b (Z.shiftr comma 18))) eq_refl eq_refl) as L.
           split; [apply highbit_plain, L|].
           cbn [anyByte]. rewrite !(cont_after_lead _ _ L (cont_byte _)). reflexivity.
        -- eexists _, _. split; [reflexivity|]. split; reflexivity.
Qed.

(** ** Reading back what was written *)

Lemma HasPrefix_app (sub post : string) : strings.HasPrefix (sub ++ post) sub = true.
Proof. apply HasPrefix_iff. exists post. reflexivity. Qed.

Lemma HasPrefix_head (c d : byte) (s sub : string) :
  strings.HasPrefix (String c s) (String d sub) = true -> c = d.
Proof.
  cbn [strings.HasPrefix]. intros H. apply andb_prop in H as [H _].
  apply Ascii.eqb_eq. exact H.
Qed.

Lemma drop_len_app (s t : string) : drop (len s) (s ++ t) = t.
Proof. induction s as [|c s IH]; [reflexivity | exact IH]. Qed.

(** A prefix of [x ++ more] lies within [x], or its tail past [x] starts
    [more]. *)
Lemma HasPrefix_split (x more sub : string) :
  strings.HasPrefix (x ++ more) sub = true ->
  strings.HasPrefix x sub = true
  \/ (exists y, sub = x ++ y /\ y <> "" /\ strings.HasPrefix more y = true).
Proof.
  revert sub; induction x as [|c x IH]; intros sub H.
  - destruct sub as [|d sub]; [left; reflexivity|].
    right. exists (String d sub). conjs; [reflexivity | discriminate | exact H].
  - destruct sub as [|d sub]; [left; reflexivity|].
    cbn [append strings.HasPrefix] in H |- *.
    apply andb_prop in H as [Hc H]. rewrite Hc. cbn [andb].
    destruct (IH _ H) as [P | (y & E & Ny & P)]; [left; exact P|].
    right. exists y. apply Ascii.eqb_eq in Hc. subst.
    conjs; [reflexivity | exact Ny | exact P].
Qed.

Lemma anyByte_app (p : byte -> bool) (s t : string) :
  anyByte p (s ++ t) = anyByte p s || anyByte p t.
Proof.
  induction s as [|c s IH]; cbn [append anyByte]; [reflexivity|].
  destruct (p c); [reflexivity | exact IH].
Qed.

Section Reader.

Variable comma : rune.
Variable useCRLF : bool.
Hypothesis comma_valid : validDelim comma = true.

Let sep : string := utf8.EncodeRune comma.
Let term : string := terminator useCRLF.

(** The first byte of the terminator is CR or LF. *)
Lemma term_head : exists c t, term = String c t /\ strings.hasByte specials c = true.
Proof. unfold term, terminator. destruct useCRLF; eexists _, _; split; reflexivity. Qed.

Lemma follows_head (more : string) :
  follows sep term more ->
  exists c r, more = String c r
    /\ (Ascii.eqb c DQ = false)
    /\ (strings.HasPrefix more term = true \/
        (strings.HasPrefix more term = false /\ strings.HasPrefix more sep = true)).
Proof.
  intros F. destruct (sep_shape comma comma_valid) as (c0 & t & Es & Pc0 & _).
  destruct term_head as (c1 & t1 & Et & Pc1).
  fold sep in Es. unfold follows in F. rewrite Es, Et in *.
  assert (D : forall c, strings.hasByte specials c = false -> Ascii.eqb c DQ = false).
  { intros c H. unfold specials in H. cbn [strings.hasByte] in H.
    apply orb_false_iff in H as [H _]. exact H. }
  destruct more as [|c r].
  - destruct F as [F|F]; discriminate F.
  - exists c, r. split; [reflexivity|].
    destruct (strings.HasPrefix (String c r) (String c1 t1)) eqn:T.
    + split; [|left; reflexivity].
      apply HasPrefix_head in T. subst c1.
      unfold term, terminator in Et.
      destruct useCRLF; inversion Et; subst; reflexivity.
    + destruct F as [F|F]; [|discriminate F].
      split; [|right; split; [reflexivity | exact F]].
      apply HasPrefix_head in F. subst c0. apply D. exact Pc0.
Qed.

(** An unquoted field is read back up to what follows it. *)
Lemma readPlain_field (f more : string) :
  ~ Contains f sep ->
  anyByte (strings.hasByte specials) f = false ->
  follows sep term more ->
  readPlain sep term (f ++ more) = (f, more).
Proof.
  intros NC NS F.
  destruct (sep_shape comma comma_valid) as (c0 & t & Es & Pc0 & Pt).
  destruct term_head as (c1 & t1 & Et & Pc1).
  destruct (follows_head more F) as (m & r & Em & _ & _).
  fold sep in Es.
  induction f as [|c f IH].
  - cbn [append]. rewrite Em. cbn [readPlain]. rewrite <- Em.
    destruct F as [F|F]; rewrite F; [|rewrite orb_true_r]; reflexivity.
  - cbn [append readPlain]. cbn [anyByte] in NS.
    destruct (strings.hasByte specials c) eqn:Pc; [discriminate NS|].
    assert (P1 : strings.HasPrefix (String c (f ++ more)) sep = false).
    { destruct (strings.HasPrefix (String c (f ++ more)) sep) eqn:P; [|reflexivity].
      exfalso. change (String c (f ++ more)) with (String c f ++ more) in P.
      destruct (HasPrefix_split _ _ _ P) as [Q | (y & E & Ny & Q)].
      - apply NC. apply HasPrefix_iff in Q as (post & Q).
        exists "", post. exact Q.
      - (* the delimiter would straddle the end of the field *)
        rewrite Es in E. cbn [append] in E. inversion E; subst c0.
        destruct y as [|d y]; [contradiction|].
        assert (Hd : (strings.hasByte specials d || Ascii.eqb d c) = false).
        { match goal with H : t = _ |- _ => rewrite H in Pt end.
          rewrite anyByte_app in Pt. apply orb_false_iff in Pt as [_ Pt].
          cbn [anyByte] in Pt.
          destruct (strings.hasByte specials d || Ascii.eqb d c);
            [discriminate Pt | reflexivity]. }
        apply orb_false_iff in Hd as [Hd1 Hd2].
        rewrite Em in Q. apply HasPrefix_head in Q. subst m.
        destruct F as [F|F].
        + rewrite Em, Es in F. apply HasPrefix_head in F. subst d.
          rewrite Ascii.eqb_refl in Hd2. discriminate Hd2.
        + rewrite Em, Et in F. apply HasPrefix_head in F. subst d.
          congruence. }
    assert (P2 : strings.HasPrefix (String c (f ++ more)) term = false).
    { destruct (strings.HasPrefix (String c (f ++ more)) term) eqn:P; [|reflexivity].
      rewrite Et in P. apply HasPrefix_head in P. subst c1. congruence. }
    rewrite P1, P2. cbn [orb].
    rewrite IH; [reflexivity | | exact NS].
    intros (pre & post & E). apply NC. exists (String c pre), post.
    rewrite E. reflexivity.
Qed.

(** A quoted field is read back up to its closing quote: always in LF
    mode, and in CRLF mode when the field holds no carriage return. *)
Lemma escape_cons_nonempty (crlf : bool) (f more : string) :
  exists d r, escape crlf f ++ String DQ more = String d r.
Proof.
  destruct (escape crlf f) as [|d r]; eexists _, _; reflexivity.
Qed.

Lemma readQuoted_field (f more : string) :
  useCRLF = false \/ anyByte (fun c => Ascii.eqb c CR) f = false ->
  (forall c r, more = String c r -> Ascii.eqb c DQ = false) ->
  readQuoted useCRLF (escape useCRLF f ++ String DQ more) = Some (f, more).
Proof.
  intros HC HM. induction f as [|c f IH].
  - cbn [escape append readQuoted]. rewrite Ascii.eqb_refl.
    destruct more as [|d r]; [reflexivity|].
    rewrite (HM d r eq_refl). reflexivity.
  - assert (HC' : useCRLF = false \/ anyByte (fun c => Ascii.eqb c CR) f = false).
    { destruct HC as [HC|HC]; [left; exact HC | right].
      cbn [anyByte] in HC. destruct (Ascii.eqb c CR); [discriminate HC | exact HC]. }
    specialize (IH HC').
    destruct (escape_cons_nonempty useCRLF f more) as (d & r & E).
    cbn [escape]. unfold escapeByte.
    destruct (Ascii.eqb c DQ) eqn:Edq.
    + apply Ascii.eqb_eq in Edq. subst c.
      cbn [append readQuoted]. rewrite !Ascii.eqb_refl, IH. reflexivity.
    + destruct (Ascii.eqb c CR) eqn:Ecr.
      * (* a carriage return: LF mode only *)
        destruct HC as [HC|HC];
          [|cbn [anyByte] in HC; rewrite Ecr in HC; discriminate HC].
        apply Ascii.eqb_eq in Ecr. subst c.
        rewrite HC in *. cbn [append readQuoted].
        change (Ascii.eqb CR DQ) with false. cbv iota.
        rewrite E. cbn [andb]. rewrite <- E, IH. reflexivity.
      * destruct (Ascii.eqb c LF) eqn:Elf.
        -- apply Ascii.eqb_eq in Elf. subst c.
           destruct useCRLF.
           ++ cbn [append readQuoted]. change (Ascii.eqb CR DQ) with false.
              cbv iota. rewrite !Ascii.eqb_refl. cbn [andb]. rewrite IH.
              reflexivity.
           ++ cbn [append readQuoted]. change (Ascii.eqb LF DQ) with false.
              cbv iota. rewrite E. cbn [andb]. rewrite <- E, IH. reflexivity.
        -- cbn [append readQuoted]. rewrite Edq, E, Ecr, andb_false_r.
           cbn [andb]. rewrite <- E, IH. reflexivity.
Qed.

End Reader.

(** A field that is written unquoted holds neither the delimiter nor a
    quote, CR or LF. *)
Lemma unquoted_plain (sw : SafeWriter) (f : string) :
  validDelim (Comma sw) = true ->
  fieldNeedsQuotes sw f = false ->
  ~ Contains f (utf8.EncodeRune (Comma sw))
  /\ anyByte (strings.hasByte specials) f = false.
Proof.
  intros V Q.
  destruct (sep_shape _ V) as (c0 & t & Es & _ & _).
  destruct (string_dec f "") as [->|N1].
  - split; [|reflexivity]. intros (pre & post & H). rewrite Es in H.
    destruct pre; discriminate H.
  - destruct (quoting_rules_early sw f) as (_ & R2 & R3).
    destruct (string_dec f endOfData) as [E|N2]; [rewrite (R2 E) in Q; discriminate Q|].
    destruct (ForceDoubleQuotes (opts sw)) eqn:F;
      [rewrite (R3 N1 N2 eq_refl) in Q; discriminate Q|].
    pose proof (quoting_rule_content sw f V N1 N2 F) as R4. split.
    + intros C. rewrite (proj2 R4) in Q by auto. discriminate Q.
    + destruct (anyByte (strings.hasByte specials) f) eqn:A; [|reflexivity].
      apply specials_Contains in A.
      rewrite (proj2 R4) in Q by tauto. discriminate Q.
Qed.

Lemma sanitize_CR (o : SafetyOpts) (field : string) :
  anyByte (fun c => Ascii.eqb c CR) field = false ->
  anyByte (fun c => Ascii.eqb c CR) (sanitize o field) = false.
Proof.
  intros H. rewrite sanitize_fires. destruct field as [|c rest]; [reflexivity|].
  destruct (fires o c); [|exact H]. cbn [anyByte].
  change (Ascii.eqb " " CR) with false. exact H.
Qed.

(** One field, followed by a delimiter or a terminator, is read back as
    the sanitized field. *)
Lemma readField_encoded (sw : SafeWriter) (field more : string) :
  validDelim (Comma sw) = true ->
  UseCRLF sw = false \/ anyByte (fun c => Ascii.eqb c CR) field = false ->
  follows (utf8.EncodeRune (Comma sw)) (terminator (UseCRLF sw)) more ->
  readField (utf8.EncodeRune (Comma sw)) (terminator (UseCRLF sw)) (UseCRLF sw)
            (encodeField sw field ++ more)
  = Some (sanitize (opts sw) field, more).
Proof.
  intros V HC F. unfold encodeField. cbv zeta.
  destruct (follows_head _ _ V more F) as (m & r & Em & Mdq & _).
  destruct (fieldNeedsQuotes sw (sanitize (opts sw) field)) eqn:Q.
  - unfold quoted. cbn [append]. rewrite app_assoc. cbn [append readField].
    rewrite Ascii.eqb_refl. apply readQuoted_field.
    + destruct HC as [HC|HC]; [left; exact HC | right; apply sanitize_CR; exact HC].
    + intros c r' E. rewrite Em in E. inversion E; subst. exact Mdq.
  - destruct (unquoted_plain sw _ V Q) as [NC NS].
    destruct (sanitize (opts sw) field) as [|c f'] eqn:S.
    + cbn [append]. rewrite Em. cbn [readField]. rewrite Mdq, <- Em.
      f_equal. exact (readPlain_field _ _ V "" more NC NS F).
    + cbn [append readField].
      assert (Cdq : Ascii.eqb c DQ = false).
      { cbn [anyByte] in NS. unfold specials in NS. cbn [strings.hasByte] in NS.
        destruct (Ascii.eqb c DQ); [discriminate NS | reflexivity]. }
      rewrite Cdq.
      change (String c (f' ++ more)) with (String c f' ++ more).
      rewrite (readPlain_field _ _ V _ more NC NS F). reflexivity.
Qed.

Lemma follows_term (sw : SafeWriter) (tail : string) :
  follows (utf8.EncodeRune (Comma sw)) (terminator (UseCRLF sw))
          (terminator (UseCRLF sw) ++ tail).
Proof. right. apply HasPrefix_app. Qed.

Lemma follows_sep (sw : SafeWriter) (tail : string) :
  follows (utf8.EncodeRune (Comma sw)) (terminator (UseCRLF sw))
          (utf8.EncodeRune (Comma sw) ++ tail).
Proof. left. apply HasPrefix_app. Qed.

(** The fields of a record are read back in order. *)
Lemma readFields_encoded (sw : SafeWriter) (rest : list string) :
  validDelim (Comma sw) = true ->
  UseCRLF sw = false
  \/ Forall (fun f => anyByte (fun c => Ascii.eqb c CR) f = false) rest ->
  forall (field tail : string) (fuel : nat),
    UseCRLF sw = false \/ anyByte (fun c => Ascii.eqb c CR) field = false ->
    (List.length rest < fuel)%nat ->
    readFields fuel (utf8.EncodeRune (Comma sw)) (terminator (UseCRLF sw))
               (UseCRLF sw)
               (encodeField sw field
                ++ delimited (utf8.EncodeRune (Comma sw)) (map (encodeField sw) rest)
                ++ terminator (UseCRLF sw) ++ tail)
    = Some (sanitize (opts sw) field :: map (sanitize (opts sw)) rest, tail).
Proof.
  intros V HR. induction rest as [|g rest IH]; intros field tail fuel HC Hf;
    (destruct fuel as [|fuel]; [simpl in Hf; lia|]); cbn [readFields map delimited].
  - cbn [append]. rewrite (readField_encoded sw field _ V HC (follows_term sw tail)).
    rewrite HasPrefix_app, drop_len_app. reflexivity.
  - rewrite !app_assoc.
    rewrite (readField_encoded sw field _ V HC (follows_sep sw _)).
    destruct (follows_head _ _ V _ (follows_sep sw
                (encodeField sw g
                 ++ delimited (utf8.EncodeRune (Comma sw)) (map (encodeField sw) rest)
                 ++ terminator (UseCRLF sw) ++ tail)))
      as (m & r & Em & _ & [T | [T S]]).
    + (* the delimiter does not start like the terminator *)
      exfalso.
      destruct (sep_shape _ V) as (c0 & t & Es & Pc0 & _).
      destruct (term_head (UseCRLF sw)) as (c1 & t1 & Et & Pc1).
      rewrite Es, Et in T. cbn [append] in T.
      apply HasPrefix_head in T. congruence.
    + rewrite T, S, drop_len_app.
      rewrite IH; [reflexivity | | | simpl in Hf; lia].
      * destruct HR as [HR|HR]; [left; exact HR | right].
        inversion HR; assumption.
      * destruct HR as [HR|HR]; [left; exact HR | right].
        inversion HR; assumption.
Qed.

Lemma len_delimited (sep : string) (fields : list string) :
  (1 <= len sep)%nat -> (List.length fields <= len (delimited sep fields))%nat.
Proof.
  intros H. induction fields as [|f rest IH]; cbn [delimited List.length]; [lia|].
  rewrite !len_app. lia.
Qed.

(** A record with at least one field is read back as its sanitized
    fields: always in LF mode, and in CRLF mode when no field holds a
    carriage return. *)
Lemma roundtrip_record (sw : SafeWriter) (field : string) (rest : list string) :
  validDelim (Comma sw) = true ->
  UseCRLF sw = false
  \/ Forall (fun f => anyByte (fun c => Ascii.eqb c CR) f = false) (field :: rest) ->
  readRecord (Comma sw) (UseCRLF sw) (encodeRecord sw (field :: rest))
  = Some (map (sanitize (opts sw)) (field :: rest), "").
Proof.
  intros V HR. unfold readRecord, encodeRecord. cbn [map].
  rewrite joinFields_cons, app_assoc.
  assert (HR' : UseCRLF sw = false
                \/ Forall (fun f => anyByte (fun c => Ascii.eqb c CR) f = false) rest)
    by (destruct HR as [HR|HR]; [left; exact HR | right; inversion HR; assumption]).
  assert (HC : UseCRLF sw = false
               \/ anyByte (fun c => Ascii.eqb c CR) field = false)
    by (destruct HR as [HR|HR]; [left; exact HR | right; inversion HR; assumption]).
  pose proof (readFields_encoded sw rest V HR' field "") as R.
  rewrite app_nil_r in R. apply R; [exact HC|].
  destruct (sep_shape _ V) as (c0 & t & Es & _ & _).
  pose proof (len_delimited (utf8.EncodeRune (Comma sw))
                (map (encodeField sw) rest)) as L.
  rewrite Es in L at 1. specialize (L ltac:(unfold len; simpl; lia)).
  rewrite length_map in L. rewrite !len_app. lia.
Qed.

(** In CRLF mode two different fields have the same bytes, so that no
    reader at all gives both back. *)
Lemma crlf_fields_collide (sw : SafeWriter) :
  UseCRLF sw = true ->
  encodeField sw fieldMidCR = encodeField sw fieldEndCR
  /\ fieldMidCR <> fieldEndCR.
Proof.
  intros U. split; [|discriminate].
  unfold encodeField, fieldNeedsQuotes, fieldMidCR, fieldEndCR.
  rewrite !sanitize_fires, U.
  assert (F : fires (opts sw) "a"%char = false).
  { unfold fires. rewrite !andb_false_r. reflexivity. }
  rewrite F. cbv zeta.
  change (String.eqb (String "a" ?s) "") with false.
  change (String.eqb (String "a" ?s) endOfData) with false. cbv iota.
  destruct (ForceDoubleQuotes (opts sw)); [reflexivity|].
  destruct (Comma sw <? utf8.RuneSelf).
  - cbn [anyByte].
    destruct (Ascii.eqb "a" (z2b (Comma sw)));
      destruct (Ascii.eqb "b" (z2b (Comma sw))); reflexivity.
  - rewrite !(proj2 (orb_true_iff _ _) (or_intror eq_refl)). reflexivity.
Qed.

Lemma crlf_no_reader (sw : SafeWriter) (decode : string -> string) :
  UseCRLF sw = true ->
  ~ (forall field, decode (encodeField sw field) = field).
Proof.
  intros U H. destruct (crlf_fields_collide sw U) as [E N].
  apply N. rewrite <- (H fieldMidCR), <- (H fieldEndCR), E. reflexivity.
Qed.

(** C4, as stated, fails: in CRLF mode, with the comma and no switch
    enabled, the field [a CR b] is written as the quoted [ab], and the
    reader gives back [ab], not the original field. *)
Lemma roundtrip_refuted :
  readRecord (lit ",") true
             (output (fst (Write (freshWriter (lit ",") true noSafety)
                                 [fieldMidCR])))
  <> Some ([fieldMidCR], "").
Proof. vm_compute. intros H. discriminate H. Qed.

(** C4, amended.  For every field, valid delimiter and policy, writing
    the field as a record on a healthy writer with empty output and
    reading the output back with the same delimiter and CRLF mode gives
    the field, behind one space when a switch fires on its first byte:
    in LF mode always, and in CRLF mode when the field holds no carriage
    return. *)
Theorem roundtrip_field (sw : SafeWriter) (field : string) :
  validDelim (Comma sw) = true ->
  UseCRLF sw = false \/ ~ Contains field (str1 CR) ->
  healthy (w sw) -> output sw = "" ->
  forall sw' e, Write sw [field] = (sw', e) ->
    e = None
    /\ readRecord (Comma sw) (UseCRLF sw) (output sw')
       = Some ([expectedField (opts sw) field], "").
Proof.
  intros V HC Hb O sw' e W.
  destruct (Write_spec sw [field] V sw' e W) as (_ & _ & S & Hh & _).
  destruct (Hh Hb) as [-> _]. split; [reflexivity|].
  rewrite (S eq_refl), O. cbn [append].
  unfold expectedField. rewrite <- sanitize_fires.
  apply (roundtrip_record sw field [] V).
  destruct HC as [HC|HC]; [left; exact HC | right].
  constructor; [|constructor].
  destruct (anyByte (fun c => Ascii.eqb c CR) field) eqn:A; [|reflexivity].
  exfalso. apply HC. apply anyByte_iff in A as (c & Pc & H).
  apply Ascii.eqb_eq in Pc. subst c. exact H.
Qed.

Lemma roundtrip_field_witness :
  readRecord (lit ";") false
             (output (fst (Write (freshWriter (lit ";") false EscapeAll)
                                 [String "=" (String DQ (String ";" fieldMidCR))])))
  = Some ([String " " (String "=" (String DQ (String ";" fieldMidCR)))], "").
Proof.
  destruct (Write (freshWriter (lit ";") false EscapeAll)
                  [String "=" (String DQ (String ";" fieldMidCR))])
    as [sw' e] eqn:W.
  destruct (roundtrip_field (freshWriter (lit ";") false EscapeAll)
              (String "=" (String DQ (String ";" fieldMidCR)))
              eq_refl (or_introl eq_refl) (conj eq_refl eq_refl) eq_refl _ _ W)
    as [_ H].
  exact H.
Defined.

(** ** The batch on a healthy writer *)

(** The bytes of a record depend on the exported fields and the policy,
    not on the buffered writer. *)
Lemma encodeRecord_withW (sw : SafeWriter) (b : bufio.Writer) (record : list string) :
  encodeRecord (withW sw b) record = encodeRecord sw record.
Proof. reflexivity. Qed.

Lemma encodeRecords_withW (sw : SafeWriter) (b : bufio.Writer)
      (records : list (list string)) :
  encodeRecords (withW sw b) records = encodeRecords sw records.
Proof.
  induction records as [|record rest IH]; cbn [encodeRecords]; [reflexivity|].
  rewrite IH, encodeRecord_withW. reflexivity.
Qed.

(** On a healthy writer with a valid delimiter, [WriteAll] returns no
    error, leaves the buffer empty, and the sink holds the former output
    followed by the bytes of every record in order. *)
Lemma WriteAll_healthy (records : list (list string)) :
  forall sw : SafeWriter,
    validDelim (Comma sw) = true -> healthy (w sw) ->
    exists sw',
      WriteAll sw records = (sw', None)
      /\ io.written (bufio.wr (w sw')) = output sw ++ encodeRecords sw records
      /\ bufio.buf (w sw') = "".
Proof.
  induction records as [|record rest IH]; intros sw V Hb; cbn [WriteAll encodeRecords].
  - destruct (bufio.Flush (w sw)) as [b e] eqn:F.
    destruct (Flush_spec _ _ _ F) as (He & Hst & Hh & _ & Hbuf & _).
    destruct (Hh Hb) as [Eb _]. rewrite Eb in He. subst e.
    exists (withW sw b). cbn [w withW]. conjs; [reflexivity | | apply Hbuf; reflexivity].
    rewrite app_nil_r. unfold output. rewrite <- Hst. unfold stream.
    rewrite (Hbuf eq_refl), app_nil_r. reflexivity.
  - destruct (Write sw record) as [sw1 e] eqn:W.
    destruct (Write_spec sw record V sw1 e W) as (Esw & _ & S & Hh & _).
    destruct (Hh Hb) as [-> Hb1].
    assert (V1 : validDelim (Comma sw1) = true) by (rewrite Esw; exact V).
    destruct (IH sw1 V1 Hb1) as (sw' & R & Hw & Hbuf).
    exists sw'. conjs; [exact R | | exact Hbuf].
    rewrite Hw, (S eq_refl), app_assoc. f_equal. f_equal.
    rewrite Esw. apply encodeRecords_withW.
Qed.

(** What a failing [Write] leaves: a prefix of the bytes of its record,
    also when the delimiter is refused and nothing is written. *)
Lemma Write_prefix (sw sw' : SafeWriter) (record : list string) (e : option error) :
  Write sw record = (sw', e) ->
  exists k, (k <= len (encodeRecord sw record))%nat
            /\ output sw' = output sw ++ take k (encodeRecord sw record).
Proof.
  intros W. destruct (validDelim (Comma sw)) eqn:V.
  - destruct (Write_spec sw record V sw' e W) as (_ & _ & _ & _ & P). exact P.
  - rewrite (Write_invalid _ _ V) in W. injection W as Hsw _. subst sw'.
    exists 0%nat. split; [lia|]. rewrite take_0, app_nil_r. reflexivity.
Qed.

(** C8.  [WriteAll] writes the records in order with [Write].  Either
    some record is the first whose [Write] returns an error: the records
    before it have been written and their bytes are in the output, in
    order; [WriteAll] returns that error and the writer as that [Write]
    left it, so that the output ends with a prefix of the bytes of the
    failing record, nothing of a later record is written and the buffer
    is not flushed.  Or every record is written without error and the
    output holds the bytes of all of them, in order: [WriteAll] then
    flushes the buffer and returns the error of the flush, which is the
    sticky error of the buffered writer; the flush keeps the output, and
    when it returns nil the buffer is empty and the sink holds the
    former output followed by the bytes of every record.  On a writer
    without error whose delimiter is valid and whose sink does not fail,
    [WriteAll] returns nil. *)
Theorem WriteAll_spec (sw : SafeWriter) (records : list (list string)) :
  ((exists pre record post sw1 sw2 x,
       records = (pre ++ record :: post)%list
       /\ written_all sw pre sw1
       /\ output sw1 = output sw ++ encodeRecords sw pre
       /\ Write sw1 record = (sw2, Some x)
       /\ WriteAll sw records = (sw2, Some x)
       /\ (exists k, (k <= len (encodeRecord sw record))%nat
                     /\ output sw2
                        = output sw ++ encodeRecords sw pre
                                    ++ take k (encodeRecord sw record)))
   \/ (exists sw1 sw2 e,
          written_all sw records sw1
          /\ output sw1 = output sw ++ encodeRecords sw records
          /\ bufio.Flush (w sw1) = (w sw2, e)
          /\ sw2 = withW sw (w sw2)
          /\ WriteAll sw records = (sw2, e)
          /\ bufio.err (w sw2) = e
          /\ output sw2 = output sw ++ encodeRecords sw records
          /\ (e = None ->
              bufio.buf (w sw2) = ""
              /\ io.written (bufio.wr (w sw2))
                 = output sw ++ encodeRecords sw records)))
  /\ (validDelim (Comma sw) = true -> healthy (w sw) ->
      snd (WriteAll sw records) = None).
Proof.
  assert (written_all_output :
            forall s rs s1, written_all s rs s1 ->
              s1 = withW s (w s1) /\ output s1 = output s ++ encodeRecords s rs).
  { induction 1 as [s | s s1 s2 r rest W _ [Ew Ho]]; cbn [encodeRecords].
    - rewrite app_nil_r. split; [destruct s|]; reflexivity.
    - destruct (validDelim (Comma s)) eqn:V;
        [|rewrite (Write_invalid _ _ V) in W; discriminate W].
      destruct (Write_spec s r V s1 None W) as (Es & _ & S & _).
      split.
      + rewrite Ew at 1. rewrite Es. reflexivity.
      + rewrite Ho, (S eq_refl), app_assoc. f_equal. f_equal.
        rewrite Es. apply encodeRecords_withW. }
  split.
  - destruct (WriteAll_cases sw records)
      as [(pre & record & post & sw1 & sw2 & x & E & P & F & R) | (sw1 & P & R)].
    + left. exists pre, record, post, sw1, sw2, x.
      destruct (written_all_output _ _ _ P) as [Ew Ho].
      destruct (Write_prefix _ _ _ _ F) as (k & Hk & Hp).
      assert (Er : encodeRecord sw1 record = encodeRecord sw record)
        by (rewrite Ew; apply encodeRecord_withW).
      rewrite Er in Hk, Hp.
      conjs; try assumption.
      exists k. split; [exact Hk|]. rewrite Hp, Ho, app_assoc. reflexivity.
    + right. destruct (written_all_output _ _ _ P) as [Ew Ho].
      destruct (bufio.Flush (w sw1)) as [b e] eqn:Fl. cbn [fst snd] in R.
      destruct (Flush_spec _ _ _ Fl) as (He & Hst & _ & _ & Hbuf & _).
      assert (Hout : output (withW sw1 b) = output sw ++ encodeRecords sw records).
      { unfold output. cbn [w withW]. rewrite Hst. exact Ho. }
      exists sw1, (withW sw1 b), e. cbn [w withW].
      conjs; try assumption; try reflexivity.
      * rewrite Ew. reflexivity.
      * symmetry. exact He.
      * intros Ee. split; [apply Hbuf; exact Ee|].
        rewrite <- Hout. unfold output, stream. cbn [w withW].
        rewrite (Hbuf Ee), app_nil_r. reflexivity.
  - intros V Hb. destruct (WriteAll_healthy records sw V Hb) as (sw' & R & _).
    rewrite R. reflexivity.
Qed.

Lemma WriteAll_spec_witness :
  snd (WriteAll (freshWriter (lit ";") true EscapeAll) [["a"; "=b"]; []; ["c"]])
  = None.
Proof.
  apply (proj2 (WriteAll_spec (freshWriter (lit ";") true EscapeAll)
                              [["a"; "=b"]; []; ["c"]])).
  - reflexivity.
  - split; reflexivity.
Defined.

(** * Further properties *)

(** ** Flush and Error *)

Lemma withW_same (sw : SafeWriter) : withW sw (w sw) = sw.
Proof. destruct sw; reflexivity. Qed.

Lemma bufio_Flush_idem (b : bufio.Writer) :
  bufio.Flush (fst (bufio.Flush b)) = bufio.Flush b.
Proof.
  unfold bufio.Flush at 2 3.
  destruct (bufio.err b) as [x|] eqn:Eb.
  - cbn [fst]. unfold bufio.Flush. rewrite Eb. reflexivity.
  - destruct (Nat.eqb_spec (len (bufio.buf b)) 0) as [E0|NE].
    + cbn [fst]. unfold bufio.Flush. rewrite Eb.
      rewrite (proj2 (Nat.eqb_eq _ _) E0). reflexivity.
    + destruct (io.Write (bufio.wr b) (bufio.buf b)) as [[wr' n] e1] eqn:W.
      destruct (io_Write_spec _ _ _ _ _ W) as (_ & _ & He1 & _).
      destruct e1 as [x|].
      * rewrite andb_false_r. reflexivity.
      * rewrite (He1 eq_refl), Nat.ltb_irrefl. reflexivity.
Qed.

Lemma bufio_Write_nil (b : bufio.Writer) :
  bufio.Write b "" = (b, 0%nat, bufio.err b).
Proof.
  unfold bufio.Write.
  assert (C : bufio.loopCond b "" = false).
  { unfold bufio.loopCond. change (len "") with 0%nat.
    rewrite (proj2 (Nat.ltb_ge _ _)) by lia. reflexivity. }
  rewrite (writeLoop_done _ _ _ _ C). unfold bufio.writeTail.
  destruct b as [e bf wr0]. cbn [bufio.err bufio.buf bufio.wr].
  destruct e; [reflexivity|]. rewrite app_nil_r. reflexivity.
Qed.

Lemma Error_eq (sw : SafeWriter) : Error sw = (sw, bufio.err (w sw)).
Proof. unfold Error. rewrite bufio_Write_nil, withW_same. reflexivity. Qed.

Lemma Flush_output (sw : SafeWriter) : output (Flush sw) = output sw.
Proof.
  unfold output, Flush. cbn [w withW].
  destruct (bufio.Flush (w sw)) as [b e] eqn:F.
  destruct (Flush_spec _ _ _ F) as (_ & Hst & _). exact Hst.
Qed.

Lemma Flush_healthy (sw : SafeWriter) :
  healthy (w sw) -> bufio.err (w (Flush sw)) = None.
Proof.
  intros Hb. unfold Flush. cbn [w withW].
  destruct (bufio.Flush (w sw)) as [b e] eqn:F.
  destruct (Flush_spec _ _ _ F) as (_ & _ & Hh & _). apply Hh; exact Hb.
Qed.

(** X1. [Error] observes and does not act: it returns the sticky error
    of the buffered writer and leaves the writer as it was, so that a
    second call returns the same. *)
Theorem Error_observes (sw : SafeWriter) :
  Error sw = (sw, bufio.err (w sw))
  /\ Error (fst (Error sw)) = Error sw.
Proof.
  pose proof (Error_eq sw) as E.
  split; [exact E|]. rewrite E. cbn [fst]. exact E.
Qed.

(** X2. [Flush] keeps the output, reports through [Error], and is
    idempotent: the bytes of the sink followed by those of the buffer
    are the same before and after; flushing twice is flushing once;
    when [Error] returns nil after the flush the buffer is empty and the
    sink holds the whole output; and on a healthy writer [Error] does
    return nil. *)
Theorem Flush_then_Error (sw : SafeWriter) :
  output (Flush sw) = output sw
  /\ Flush (Flush sw) = Flush sw
  /\ (snd (Error (Flush sw)) = None ->
      bufio.buf (w (Flush sw)) = ""
      /\ io.written (bufio.wr (w (Flush sw))) = output sw)
  /\ (healthy (w sw) -> snd (Error (Flush sw)) = None).
Proof.
  assert (Idem : Flush (Flush sw) = Flush sw).
  { unfold Flush. cbn [w withW]. rewrite bufio_Flush_idem. reflexivity. }
  destruct (bufio.Flush (w sw)) as [b e] eqn:F.
  destruct (Flush_spec _ _ _ F) as (He & Hst & Hh & _ & Hbuf & _).
  assert (Fw : w (Flush sw) = b) by (unfold Flush; rewrite F; reflexivity).
  conjs.
  - unfold output. rewrite Fw. exact Hst.
  - exact Idem.
  - rewrite (Error_eq (Flush sw)), Fw. cbn [snd].
    intros Eb. rewrite <- He in Eb. split; [apply Hbuf; exact Eb|].
    unfold output. rewrite <- Hst. unfold stream.
    rewrite (Hbuf Eb), app_nil_r. reflexivity.
  - intros Hb. rewrite (Error_eq (Flush sw)), Fw.
    cbn [snd]. apply Hh; exact Hb.
Qed.

Lemma Flush_then_Error_witness :
  snd (Error (Flush (freshWriter (lit ",") false EscapeAll))) = None.
Proof.
  destruct (Flush_then_Error (freshWriter (lit ",") false EscapeAll))
    as (_ & _ & _ & H).
  apply H. split; reflexivity.
Defined.

(** ** The sticky error, once set *)

Lemma Write_sticky (sw : SafeWriter) (record : list string) (x : error) :
  validDelim (Comma sw) = true -> bufio.err (w sw) = Some x ->
  Write sw record = (sw, Some x).
Proof.
  intros V Eb. rewrite (Write_valid _ _ V).
  destruct ((writeFields sw 0 record ;; writeTerminator sw) (w sw)) as [b' e'] eqn:R.
  destruct (appends_record sw record _ _ _ R) as (_ & _ & _ & K & _).
  pose proof (strict_record sw record _ _ Eb) as St. rewrite R in St.
  cbn [fst snd] in *. rewrite (K _ Eb), St, withW_same. reflexivity.
Qed.

(** X3. Once the sink has failed, the writer is dead: with a valid
    delimiter and a sticky error, [Write] returns that error for every
    record and [WriteAll] for every batch, and neither changes the
    writer, so nothing more is written. *)
Theorem dead_after_error (sw : SafeWriter) (x : error) :
  validDelim (Comma sw) = true -> bufio.err (w sw) = Some x ->
  (forall record, Write sw record = (sw, Some x))
  /\ (forall records, WriteAll sw records = (sw, Some x)).
Proof.
  intros V Eb. split.
  - intros record. apply Write_sticky; assumption.
  - intros [|record rest]; cbn [WriteAll].
    + unfold bufio.Flush. rewrite Eb, withW_same. reflexivity.
    + rewrite (Write_sticky _ _ _ V Eb). reflexivity.
Qed.

Lemma dead_after_error_witness :
  Write (mkSafeWriter (lit ",") false
           (bufio.mkWriter (Some diskFull) "ab" (Builder "")) EscapeAll)
        ["c"]
  = (mkSafeWriter (lit ",") false
       (bufio.mkWriter (Some diskFull) "ab" (Builder "")) EscapeAll,
     Some diskFull).
Proof.
  destruct (dead_after_error
              (mkSafeWriter (lit ",") false
                 (bufio.mkWriter (Some diskFull) "ab" (Builder "")) EscapeAll)
              diskFull eq_refl eq_refl) as [H _].
  apply H.
Defined.

(** ** The batch on any sink *)

(** What [WriteAll] leaves behind, whatever the sink does. *)
Lemma WriteAll_any_sink (records : list (list string)) :
  forall sw sw' e,
    WriteAll sw records = (sw', e) ->
    sw' = withW sw (w sw')
    /\ (validDelim (Comma sw) = true -> bufio.err (w sw') = e)
    /\ (e = None ->
        bufio.buf (w sw') = ""
        /\ io.written (bufio.wr (w sw')) = output sw ++ encodeRecords sw records)
    /\ (exists k, (k <= len (encodeRecords sw records))%nat
                  /\ output sw' = output sw ++ take k (encodeRecords sw records)).
Proof.
  induction records as [|record rest IH]; intros sw sw' e H;
    cbn [WriteAll encodeRecords] in *.
  - destruct (bufio.Flush (w sw)) as [b e1] eqn:F.
    destruct (Flush_spec _ _ _ F) as (He & Hst & _ & _ & Hbuf & _).
    injection H as Hsw Hee. subst sw' e. cbn [w withW]. conjs.
    + reflexivity.
    + intros _. symmetry. exact He.
    + intros Ee. split; [apply Hbuf; exact Ee|].
      rewrite app_nil_r. unfold output. rewrite <- Hst. unfold stream.
      rewrite (Hbuf Ee), app_nil_r. reflexivity.
    + exists 0%nat. split; [lia|]. rewrite app_nil_r. exact Hst.
  - destruct (validDelim (Comma sw)) eqn:V.
    + destruct (Write sw record) as [sw1 e1] eqn:W.
      destruct (Write_spec sw record V sw1 e1 W) as (Esw & L & S & _ & (k & Hk & P)).
      destruct e1 as [x|].
      * inversion H; subst; clear H. conjs.
        -- exact Esw.
        -- intros _. exact L.
        -- intros; discriminate.
        -- exists k. rewrite take_app_le by exact Hk. rewrite len_app.
           split; [lia | exact P].
      * destruct (IH sw1 sw' e H) as (Esw' & L' & S' & (k' & Hk' & P')).
        assert (R : encodeRecords sw1 rest = encodeRecords sw rest)
          by (rewrite Esw; apply encodeRecords_withW).
        rewrite R in *. conjs.
        -- rewrite Esw' at 1. rewrite Esw. reflexivity.
        -- intros _. apply L'. rewrite Esw. exact V.
        -- intros Ee. destruct (S' Ee) as [Hb Hw]. split; [exact Hb|].
           rewrite Hw, (S eq_refl), app_assoc. reflexivity.
        -- exists (len (encodeRecord sw record) + k')%nat.
           rewrite take_app_len, P', (S eq_refl), app_assoc, len_app.
           split; [lia | reflexivity].
    + rewrite (Write_invalid _ _ V) in H. inversion H; subst; clear H. conjs.
      * symmetry. apply withW_same.
      * intros; discriminate.
      * intros; discriminate.
      * exists 0%nat. split; [lia|]. rewrite take_0, app_nil_r. reflexivity.
Qed.

(** X4. Whatever the sink does, when [WriteAll] returns nil the whole
    batch has reached the sink: the buffer is empty and the sink holds
    the former output followed by the bytes of every record, in order. *)
Theorem WriteAll_success_delivers (sw sw' : SafeWriter)
        (records : list (list string)) :
  WriteAll sw records = (sw', None) ->
  bufio.buf (w sw') = ""
  /\ io.written (bufio.wr (w sw')) = output sw ++ encodeRecords sw records.
Proof.
  intros H. destruct (WriteAll_any_sink records sw sw' None H) as (_ & _ & S & _).
  apply S. reflexivity.
Qed.

Lemma WriteAll_success_delivers_witness :
  io.written (bufio.wr (w (fst (WriteAll (NewSafeWriter (Builder "x") EscapeAll)
                                         [["a"; "=b"]; []; ["c"]]))))
  = "x" ++ encodeRecords (NewSafeWriter (Builder "x") EscapeAll)
                         [["a"; "=b"]; []; ["c"]].
Proof.
  destruct (WriteAll_success_delivers
              (NewSafeWriter (Builder "x") EscapeAll)
              (fst (WriteAll (NewSafeWriter (Builder "x") EscapeAll)
                             [["a"; "=b"]; []; ["c"]]))
              [["a"; "=b"]; []; ["c"]] eq_refl) as [_ H].
  exact H.
Defined.

(** X5. With a valid delimiter, an error that [WriteAll] returns is
    latched, so that [Error] returns it afterwards, and what has been
    written by then is a prefix of the bytes of the batch: a failure
    truncates the output and never garbles it. *)
Theorem WriteAll_failure_truncates (sw sw' : SafeWriter)
        (records : list (list string)) (x : error) :
  validDelim (Comma sw) = true ->
  WriteAll sw records = (sw', Some x) ->
  snd (Error sw') = Some x
  /\ (exists k, (k <= len (encodeRecords sw records))%nat
                /\ output sw' = output sw ++ take k (encodeRecords sw records)).
Proof.
  intros V H.
  destruct (WriteAll_any_sink records sw sw' _ H) as (_ & L & _ & P).
  split; [|exact P].
  rewrite (Error_eq sw'). cbn [snd]. apply L, V.
Qed.

Lemma WriteAll_failure_truncates_witness :
  snd (Error (fst (WriteAll (NewSafeWriter (failingSink 3) noSafety)
                            [["a"; "b"]; ["c"]])))
  = Some diskFull.
Proof.
  destruct (WriteAll_failure_truncates
              (NewSafeWriter (failingSink 3) noSafety)
              (fst (WriteAll (NewSafeWriter (failingSink 3) noSafety)
                             [["a"; "b"]; ["c"]]))
              [["a"; "b"]; ["c"]] diskFull eq_refl eq_refl) as [H _].
  exact H.
Defined.

(** ** A new writer over a builder *)

(** X6. A writer made by [NewSafeWriter] over a [strings.Builder] has
    the comma as delimiter, which is valid, and LF mode; and for every
    policy, every content of the builder and every batch, [WriteAll]
    returns nil and the builder holds its former content followed by the
    bytes of the records. *)
Theorem NewSafeWriter_WriteAll (o : SafetyOpts) (content : string)
        (records : list (list string)) :
  Comma (NewSafeWriter (Builder content) o) = lit ","
  /\ UseCRLF (NewSafeWriter (Builder content) o) = false
  /\ validDelim (Comma (NewSafeWriter (Builder content) o)) = true
  /\ snd (WriteAll (NewSafeWriter (Builder content) o) records) = None
  /\ io.written (bufio.wr (w (fst (WriteAll (NewSafeWriter (Builder content) o)
                                            records))))
     = content ++ encodeRecords (NewSafeWriter (Builder content) o) records.
Proof.
  conjs; try reflexivity.
  - destruct (WriteAll_healthy records (NewSafeWriter (Builder content) o)
                eq_refl (conj eq_refl eq_refl)) as (sw' & R & _).
    rewrite R. reflexivity.
  - destruct (WriteAll_healthy records (NewSafeWriter (Builder content) o)
                eq_refl (conj eq_refl eq_refl)) as (sw' & R & Hw & _).
    rewrite R. cbn [fst]. rewrite Hw. unfold output, stream. cbn.
    rewrite app_nil_r. reflexivity.
Qed.

(** ** Writing without looking at the errors *)

Lemma Flush_sticky (sw : SafeWriter) (x : error) :
  bufio.err (w sw) = Some x -> Flush sw = sw.
Proof.
  intros Eb. unfold Flush, bufio.Flush. rewrite Eb. apply withW_same.
Qed.

Lemma writeIgnoring_sticky (records : list (list string)) :
  forall sw x,
    validDelim (Comma sw) = true -> bufio.err (w sw) = Some x ->
    writeIgnoring sw records = sw.
Proof.
  induction records as [|record rest IH]; intros sw x V Eb; cbn [writeIgnoring].
  - reflexivity.
  - rewrite (Write_sticky _ _ _ V Eb). cbn [fst]. apply (IH sw x V Eb).
Qed.

(** X7. With a valid delimiter, ignoring what [Write] returns and asking
    [Error] once after the flush, as [writeToWriter] of the example
    does, loses nothing: the run ends exactly as [WriteAll] does on the
    same records, in the same writer when [WriteAll] returns nil and
    with the same error when it does not. *)
Theorem writeThenCheck_as_WriteAll (records : list (list string)) :
  forall sw,
    validDelim (Comma sw) = true ->
    writeThenCheck sw records
    = match WriteAll sw records with
      | (sw', None) => inl sw'
      | (_, Some x) => inr x
      end.
Proof.
  induction records as [|record rest IH]; intros sw V.
  - unfold writeThenCheck. cbn [writeIgnoring WriteAll].
    rewrite (Error_eq (Flush sw)).
    unfold Flush. destruct (bufio.Flush (w sw)) as [b e] eqn:F.
    destruct (Flush_spec _ _ _ F) as (He & _). cbn [fst w withW].
    rewrite <- He. destruct e; reflexivity.
  - cbn [WriteAll]. destruct (Write sw record) as [sw1 e1] eqn:W.
    destruct (Write_spec sw record V sw1 e1 W) as (Esw & L & _).
    assert (V1 : validDelim (Comma sw1) = true) by (rewrite Esw; exact V).
    destruct e1 as [x|].
    + unfold writeThenCheck. cbn [writeIgnoring]. rewrite W. cbn [fst].
      rewrite (writeIgnoring_sticky rest sw1 x V1 L), (Flush_sticky sw1 x L).
      rewrite (Error_eq sw1), L. reflexivity.
    + rewrite <- (IH sw1 V1). unfold writeThenCheck. cbn [writeIgnoring].
      rewrite W. reflexivity.
Qed.

Lemma writeThenCheck_as_WriteAll_witness :
  writeToWriter (NewSafeWriter (Builder "") EscapeAll)
  = inl (fst (WriteAll (NewSafeWriter (Builder "") EscapeAll) testRecords)).
Proof.
  unfold writeToWriter.
  rewrite (writeThenCheck_as_WriteAll testRecords
             (NewSafeWriter (Builder "") EscapeAll) eq_refl).
  reflexivity.
Defined.

Lemma writeIgnoring_invalid (records : list (list string)) (sw : SafeWriter) :
  validDelim (Comma sw) = false -> writeIgnoring sw records = sw.
Proof.
  intros V. induction records as [|record rest IH]; cbn [writeIgnoring].
  - reflexivity.
  - rewrite (Write_invalid _ _ V). cbn [fst]. exact IH.
Qed.

(** X8. With an invalid delimiter the same run drops every record
    without a trace: no [Write] changes the writer, so the run ends as
    the run on no record at all; on a healthy writer it does not panic
    and the output is what it was, although [WriteAll] on a batch with a
    record returns [errInvalidDelim]. *)
Theorem writeThenCheck_invalid_delimiter (sw : SafeWriter)
        (records : list (list string)) :
  validDelim (Comma sw) = false ->
  writeThenCheck sw records = writeThenCheck sw []
  /\ (healthy (w sw) ->
      exists sw', writeThenCheck sw records = inl sw' /\ output sw' = output sw)
  /\ (records <> [] -> snd (WriteAll sw records) = Some errInvalidDelim).
Proof.
  intros V.
  assert (E0 : writeThenCheck sw records = writeThenCheck sw []).
  { unfold writeThenCheck. rewrite (writeIgnoring_invalid records sw V).
    reflexivity. }
  conjs.
  - exact E0.
  - intros Hb. rewrite E0. unfold writeThenCheck. cbn [writeIgnoring].
    rewrite (Error_eq (Flush sw)), (Flush_healthy sw Hb).
    exists (Flush sw). split; [reflexivity | apply Flush_output].
  - intros N. destruct records as [|record rest]; [contradiction|].
    cbn [WriteAll]. rewrite (Write_invalid _ _ V). reflexivity.
Qed.

Lemma writeThenCheck_invalid_delimiter_witness :
  writeThenCheck (freshWriter (lit DQ) false EscapeAll) testRecords
  = writeThenCheck (freshWriter (lit DQ) false EscapeAll) [].
Proof.
  destruct (writeThenCheck_invalid_delimiter
              (freshWriter (lit DQ) false EscapeAll) testRecords eq_refl)
    as [H _].
  exact H.
Defined.

(** The two runs of the example program give what the test of the
    package expects for the same policies. *)
Example example_force_double_quotes :
  safeWriterForceDoubleQuotes = buildTest true false false false false false false.
Proof. vm_compute. reflexivity. Qed.

Example example_escape_everything :
  safeWriterEscapeEverything = buildTest false true true true true true true.
Proof. vm_compute. reflexivity. Qed.

(** ** What the policy achieves *)

Lemma specials_cases (c : byte) :
  strings.hasByte specials c = true -> c = DQ \/ c = CR \/ c = LF.
Proof.
  unfold specials. cbn [strings.hasByte].
  rewrite !orb_true_iff, !Ascii.eqb_eq. intros [H|[H|[H|H]]]; auto; discriminate.
Qed.

(** A field that starts with a quote, CR or LF is quoted, whatever the
    delimiter. *)
Lemma special_first_quoted (sw : SafeWriter) (c : byte) (rest : string) :
  strings.hasByte specials c = true ->
  fieldNeedsQuotes sw (String c rest) = true.
Proof.
  intros H. unfold fieldNeedsQuotes.
  change (String.eqb (String c rest) "") with false. cbv iota.
  assert (E : String.eqb (String c rest) endOfData = false).
  { destruct (specials_cases c H) as [->|[->| ->]]; reflexivity. }
  rewrite E. destruct (ForceDoubleQuotes (opts sw)); [reflexivity|].
  destruct (Comma sw <? utf8.RuneSelf).
  - cbn [anyByte].
    destruct (specials_cases c H) as [->|[->| ->]]; reflexivity.
  - unfold strings.ContainsAny. cbn [strings.IndexAny]. rewrite H.
    rewrite orb_true_r. reflexivity.
Qed.

Lemma fires_trigger (o : SafetyOpts) (c : byte) :
  allEscapes o = true -> fires o c = isTrigger c.
Proof.
  unfold allEscapes, fires, isTrigger. intros H.
  repeat (apply andb_prop in H; destruct H as [H ?]).
  repeat match goal with E : _ = true |- _ => rewrite E; clear E end.
  reflexivity.
Qed.

(** X9. With every escape switch on, as in the presets [EscapeAll] and
    [FullSafety], and a field that does not start with a carriage return
    in CRLF mode, the content of the written field never starts with
    [=], [+], [-], [@], tab or line feed: the first byte of an unquoted
    field, and the byte after the opening quote of a quoted one, is none
    of them.  This holds of the bytes of the field, and of what the
    field loop of [Write] appends for it to the output of a writer
    without error: it succeeds when the sink does not fail, and the
    bytes it has appended when it returns nil start in this way.  Both
    presets have every switch on. *)
Theorem no_trigger_first (sw : SafeWriter) (field : string) :
  allEscapes (opts sw) = true ->
  UseCRLF sw = false \/ (forall rest, field <> String CR rest) ->
  (forall c, firstContent (encodeField sw field) = Some c -> isTrigger c = false)
  /\ (forall b b' e,
         writeField sw field b = (b', e) ->
         (healthy b -> e = None)
         /\ (bufio.err b = None -> e = None ->
             exists bytes,
               stream b' = stream b ++ bytes
               /\ forall c, firstContent bytes = Some c -> isTrigger c = false))
  /\ allEscapes EscapeAll = true /\ allEscapes FullSafety = true.
Proof.
  intros A HC.
  assert (FC : forall c, firstContent (encodeField sw field) = Some c ->
                         isTrigger c = false);
    [|conjs; try reflexivity; [exact FC|];
      intros b b' e W;
      destruct (appends_writeField sw field _ _ _ W) as (_ & St & Hh & _);
      split;
      [intros Hb; apply Hh; exact Hb
      |intros Eb Ee; exists (encodeField sw field);
       split; [apply St; assumption | exact FC]]].
  intros c. unfold encodeField. cbv zeta. rewrite sanitize_fires.
  destruct field as [|c0 rest]; [intros H; discriminate H|].
  rewrite (fires_trigger _ c0 A).
  destruct (isTrigger c0) eqn:T.
  - (* sanitized: a space comes first *)
    rewrite fieldNeedsQuotes_space. unfold quoted. cbn [escape].
    change (escapeByte (UseCRLF sw) " "%char) with (String " " "").
    cbn [append firstContent]. rewrite Ascii.eqb_refl.
    intros H; inversion H; reflexivity.
  - destruct (fieldNeedsQuotes sw (String c0 rest)) eqn:Q.
    + unfold quoted. cbn [escape firstContent]. rewrite Ascii.eqb_refl.
      unfold escapeByte.
      destruct (Ascii.eqb c0 DQ) eqn:Edq.
      * cbn [append]. intros H; inversion H; reflexivity.
      * destruct (Ascii.eqb c0 CR) eqn:Ecr.
        -- apply Ascii.eqb_eq in Ecr. subst c0.
           destruct HC as [HC|HC]; [|exfalso; apply (HC rest); reflexivity].
           rewrite HC. cbn [append]. intros H; inversion H; reflexivity.
        -- destruct (Ascii.eqb c0 LF) eqn:Elf.
           ++ apply Ascii.eqb_eq in Elf. subst c0. discriminate T.
           ++ cbn [append]. intros H; inversion H; subst. exact T.
    + cbn [firstContent].
      destruct (Ascii.eqb c0 DQ) eqn:Edq.
      * apply Ascii.eqb_eq in Edq. subst c0.
        rewrite (special_first_quoted sw DQ rest eq_refl) in Q. discriminate Q.
      * intros H; inversion H; subst. exact T.
Qed.

Lemma no_trigger_first_witness :
  firstContent (encodeField (freshWriter (lit ",") false EscapeAll) "=1+1")
  = Some " "%char
  /\ isTrigger " "%char = false.
Proof.
  destruct (no_trigger_first (freshWriter (lit ",") false EscapeAll) "=1+1"
              eq_refl (or_introl eq_refl)) as [H _].
  split; [reflexivity | apply (H " "%char eq_refl)].
Defined.

(** X10. In CRLF mode the first byte is examined before carriage
    returns are dropped: for every policy and delimiter, a field made of
    a carriage return and [rest] is not sanitized, is quoted, and is
    written as the quote, the escaped [rest] and the quote, so that its
    content starts with the first byte of [rest], trigger or not. *)
Theorem leading_CR_unsanitized (sw : SafeWriter) (rest : string) :
  UseCRLF sw = true ->
  sanitize (opts sw) (String CR rest) = String CR rest
  /\ encodeField sw (String CR rest)
     = String DQ (escape true rest ++ String DQ "")
  /\ (forall b b' e,
         writeField sw (String CR rest) b = (b', e) ->
         (healthy b -> e = None)
         /\ (bufio.err b = None -> e = None ->
             stream b' = stream b ++ String DQ (escape true rest ++ String DQ ""))).
Proof.
  intros U.
  assert (S : sanitize (opts sw) (String CR rest) = String CR rest).
  { rewrite sanitize_fires.
    replace (fires (opts sw) CR) with false; [reflexivity|].
    unfold fires. change (Ascii.eqb CR "="%char) with false.
    change (Ascii.eqb CR "+"%char) with false.
    change (Ascii.eqb CR "-"%char) with false.
    change (Ascii.eqb CR "@"%char) with false. change (Ascii.eqb CR TAB) with false.
    change (Ascii.eqb CR LF) with false. rewrite !andb_false_r. reflexivity. }
  assert (E : encodeField sw (String CR rest)
              = String DQ (escape true rest ++ String DQ "")).
  { unfold encodeField. cbv zeta.
    rewrite S, (special_first_quoted sw CR rest eq_refl), U. reflexivity. }
  conjs; [exact S | exact E |].
  intros b b' e W.
  destruct (appends_writeField sw (String CR rest) _ _ _ W) as (_ & St & Hh & _).
  rewrite <- E. split.
  - intros Hb. apply Hh; exact Hb.
  - intros Eb Ee. apply St; assumption.
Qed.

Lemma leading_CR_unsanitized_witness :
  encodeField (freshWriter (lit ",") true FullSafety) (String CR "=1+1")
  = String DQ ("=1+1" ++ String DQ "").
Proof.
  destruct (leading_CR_unsanitized (freshWriter (lit ",") true FullSafety)
              "=1+1" eq_refl) as (_ & E & _).
  exact E.
Defined.

(** ** Line endings in CRLF mode *)

Lemma crlfPaired_app_len (n : nat) :
  forall s t, (len s <= n)%nat ->
    crlfPaired s = true -> crlfPaired t = true -> crlfPaired (s ++ t) = true.
Proof.
  induction n as [|n IH]; intros s t Hn Hs Ht.
  - destruct s; [exact Ht | unfold len in Hn; simpl in Hn; lia].
  - destruct s as [|c s]; [exact Ht|].
    cbn [append crlfPaired] in *.
    destruct (Ascii.eqb c CR).
    + destruct s as [|d s]; [discriminate Hs|]. cbn [append].
      apply andb_prop in Hs as [Hd Hs]. rewrite Hd. cbn [andb].
      apply IH; [unfold len in *; simpl in Hn; lia | exact Hs | exact Ht].
    + destruct (Ascii.eqb c LF); [discriminate Hs|].
      apply IH; [unfold len in *; simpl in Hn; lia | exact Hs | exact Ht].
Qed.

Lemma crlfPaired_app (s t : string) :
  crlfPaired s = true -> crlfPaired t = true -> crlfPaired (s ++ t) = true.
Proof. apply (crlfPaired_app_len (len s)). lia. Qed.

(** Bytes without quote, CR or LF are paired. *)
Lemma plain_paired (s : string) :
  anyByte (strings.hasByte specials) s = false -> crlfPaired s = true.
Proof.
  induction s as [|c s IH]; cbn [anyByte crlfPaired]; [reflexivity|].
  destruct (strings.hasByte specials c) eqn:Hc; [discriminate|].
  unfold specials in Hc. cbn [strings.hasByte] in Hc.
  apply orb_false_iff in Hc as [_ Hc]. apply orb_false_iff in Hc as [Hcr Hc].
  apply orb_false_iff in Hc as [Hlf _]. rewrite Hcr, Hlf. exact IH.
Qed.

Lemma escape_paired (field : string) : crlfPaired (escape true field) = true.
Proof.
  induction field as [|c field IH]; cbn [escape]; [reflexivity|].
  apply crlfPaired_app; [|exact IH]. unfold escapeByte.
  destruct (Ascii.eqb c DQ); [reflexivity|].
  destruct (Ascii.eqb c CR) eqn:Ecr; [reflexivity|].
  destruct (Ascii.eqb c LF) eqn:Elf; [reflexivity|].
  cbn [crlfPaired]. rewrite Ecr, Elf. reflexivity.
Qed.

Lemma anyByte_weaken (p r : byte -> bool) (s : string) :
  (forall c, r c = true -> p c = true) ->
  anyByte p s = false -> anyByte r s = false.
Proof.
  intros H. induction s as [|c s IH]; cbn [anyByte]; [reflexivity|].
  destruct (p c) eqn:Pc; [discriminate|].
  destruct (r c) eqn:Rc; [rewrite (H c Rc) in Pc; discriminate | exact IH].
Qed.

Lemma sep_plain (comma : rune) :
  validDelim comma = true ->
  anyByte (strings.hasByte specials) (utf8.EncodeRune comma) = false.
Proof.
  intros V. destruct (sep_shape comma V) as (c0 & t & Es & Pc0 & Pt).
  rewrite Es. cbn [anyByte]. rewrite Pc0.
  apply (anyByte_weaken _ _ t (fun c H => proj2 (orb_true_iff _ _) (or_introl H)) Pt).
Qed.

Lemma encodeField_paired (sw : SafeWriter) (field : string) :
  validDelim (Comma sw) = true -> UseCRLF sw = true ->
  crlfPaired (encodeField sw field) = true.
Proof.
  intros V U. unfold encodeField. cbv zeta.
  destruct (fieldNeedsQuotes sw (sanitize (opts sw) field)) eqn:Q.
  - unfold quoted. rewrite U. change (String DQ ?s) with (String DQ "" ++ s).
    apply crlfPaired_app; [reflexivity|].
    apply crlfPaired_app; [apply escape_paired | reflexivity].
  - apply plain_paired. apply (unquoted_plain sw _ V Q).
Qed.

Lemma encodeRecord_paired (sw : SafeWriter) (record : list string) :
  validDelim (Comma sw) = true -> UseCRLF sw = true ->
  crlfPaired (encodeRecord sw record) = true.
Proof.
  intros V U. unfold encodeRecord.
  apply crlfPaired_app; [|rewrite U; reflexivity].
  destruct record as [|f rest]; [reflexivity|].
  cbn [map]. rewrite joinFields_cons.
  apply crlfPaired_app; [apply encodeField_paired; assumption|].
  induction rest as [|g rest IH]; cbn [map delimited]; [reflexivity|].
  apply crlfPaired_app; [apply plain_paired, sep_plain, V|].
  apply crlfPaired_app; [apply encodeField_paired; assumption | exact IH].
Qed.

(** X11. In CRLF mode with a valid delimiter [Write] keeps the line
    endings of the output paired: when every carriage return of the
    output is followed by a line feed and every line feed follows a
    carriage return, the same holds after a record has been written
    without error, whatever carriage returns and line feeds its fields
    hold. *)
Theorem Write_keeps_crlf (sw : SafeWriter) (record : list string) :
  validDelim (Comma sw) = true -> UseCRLF sw = true ->
  crlfPaired (output sw) = true ->
  forall sw', Write sw record = (sw', None) ->
    crlfPaired (output sw') = true.
Proof.
  intros V U P sw' W.
  destruct (Write_spec sw record V sw' None W) as (_ & _ & S & _).
  rewrite (S eq_refl). apply crlfPaired_app; [exact P|].
  apply encodeRecord_paired; assumption.
Qed.

Lemma Write_keeps_crlf_witness :
  crlfPaired (output (fst (Write (freshWriter (lit ";") true noSafety)
                                 [String "a" (String LF (String CR "b")); "c"])))
  = true.
Proof.
  apply (Write_keeps_crlf (freshWriter (lit ";") true noSafety)
           [String "a" (String LF (String CR "b")); "c"]
           eq_refl eq_refl eq_refl).
  reflexivity.
Defined.

(** ** Plain fields *)

(** X12. A field that needs nothing is written as it is: with a valid
    delimiter and quoting not forced, a field other than backslash, dot
    that holds neither the delimiter nor a quote, CR or LF, does not
    start with white space, and on whose first byte no switch fires, is
    written byte for byte, without quotes and without a space. *)
Theorem plain_field_verbatim (sw : SafeWriter) (field : string) :
  validDelim (Comma sw) = true ->
  ForceDoubleQuotes (opts sw) = false ->
  field <> endOfData ->
  (forall c rest, field = String c rest -> fires (opts sw) c = false) ->
  ~ Contains field (utf8.EncodeRune (Comma sw)) ->
  ~ Contains field (str1 DQ) -> ~ Contains field (str1 CR) ->
  ~ Contains field (str1 LF) ->
  unicode.IsSpace (fst (utf8.DecodeRuneInString field)) = false ->
  encodeField sw field = field
  /\ (forall b b' e,
         writeField sw field b = (b', e) ->
         (healthy b -> e = None)
         /\ (bufio.err b = None -> e = None -> stream b' = stream b ++ field)).
Proof.
  intros V F N2 NF Nc Ndq Ncr Nlf Nsp.
  assert (S : sanitize (opts sw) field = field).
  { rewrite sanitize_fires. destruct field as [|c rest]; [reflexivity|].
    rewrite (NF c rest eq_refl). reflexivity. }
  assert (Q : fieldNeedsQuotes sw field = false).
  { destruct (string_dec field "") as [->|N1]; [reflexivity|].
    destruct (fieldNeedsQuotes sw field) eqn:Q; [|reflexivity].
    apply (quoting_rule_content sw field V N1 N2 F) in Q.
    destruct Q as [H|[H|[H|[H|H]]]]; try contradiction. congruence. }
  assert (E : encodeField sw field = field).
  { unfold encodeField. cbv zeta. rewrite S, Q. reflexivity. }
  split; [exact E|].
  intros b b' e W.
  destruct (appends_writeField sw field _ _ _ W) as (_ & St & Hh & _).
  rewrite E in St. split.
  - intros Hb. apply Hh; exact Hb.
  - intros Eb Ee. apply St; assumption.
Qed.

Lemma plain_field_verbatim_witness :
  encodeField (freshWriter (lit ";") false EscapeAll) "a,b c" = "a,b c".
Proof.
  assert (N : forall sub, strings.Index "a,b c" sub = -1 -> ~ Contains "a,b c" sub).
  { intros sub E C. apply Index_Contains in C. rewrite E in C. lia. }
  assert (N2 : "a,b c" <> endOfData) by discriminate.
  assert (NF : forall c rest, "a,b c" = String c rest ->
                 fires (opts (freshWriter (lit ";") false EscapeAll)) c = false).
  { intros c rest H. inversion H; subst. reflexivity. }
  exact (proj1 (plain_field_verbatim (freshWriter (lit ";") false EscapeAll)
                  "a,b c" eq_refl eq_refl N2 NF
                  (N (utf8.EncodeRune (lit ";")) eq_refl) (N (str1 DQ) eq_refl)
                  (N (str1 CR) eq_refl) (N (str1 LF) eq_refl)
                  eq_refl)).
Defined.

(** ** The bytes of a record determine its fields *)

Lemma app_inv_head (s t u : string) : s ++ t = s ++ u -> t = u.
Proof.
  induction s as [|c s IH]; cbn [append]; intros H; [exact H|].
  inversion H. apply IH. assumption.
Qed.

(** X13. Written records are unambiguous.  With a valid delimiter, in LF
    mode or when no field holds a carriage return, two records with at
    least one field whose writes leave the same output have the same
    fields after sanitization, in number and in order: nothing but the
    space of the sanitizer is lost between the fields given and the
    bytes written. *)
Theorem written_record_unambiguous (sw : SafeWriter)
        (f1 : string) (r1 : list string) (f2 : string) (r2 : list string) :
  validDelim (Comma sw) = true ->
  UseCRLF sw = false
  \/ Forall (fun f => anyByte (fun c => Ascii.eqb c CR) f = false)
            ((f1 :: r1) ++ (f2 :: r2))%list ->
  forall sa sb,
    Write sw (f1 :: r1) = (sa, None) ->
    Write sw (f2 :: r2) = (sb, None) ->
    output sa = output sb ->
    map (sanitize (opts sw)) (f1 :: r1) = map (sanitize (opts sw)) (f2 :: r2).
Proof.
  intros V HC sa sb Wa Wb Ho.
  destruct (Write_spec sw _ V sa None Wa) as (_ & _ & Sa & _).
  destruct (Write_spec sw _ V sb None Wb) as (_ & _ & Sb & _).
  rewrite (Sa eq_refl), (Sb eq_refl) in Ho. apply app_inv_head in Ho.
  assert (H1 : UseCRLF sw = false
               \/ Forall (fun f => anyByte (fun c => Ascii.eqb c CR) f = false)
                         (f1 :: r1)).
  { destruct HC as [HC|HC]; [left; exact HC | right].
    apply Forall_app in HC. apply HC. }
  assert (H2 : UseCRLF sw = false
               \/ Forall (fun f => anyByte (fun c => Ascii.eqb c CR) f = false)
                         (f2 :: r2)).
  { destruct HC as [HC|HC]; [left; exact HC | right].
    apply Forall_app in HC. apply HC. }
  pose proof (roundtrip_record sw f1 r1 V H1) as R1.
  pose proof (roundtrip_record sw f2 r2 V H2) as R2.
  rewrite Ho in R1. rewrite R1 in R2. congruence.
Qed.

Lemma written_record_unambiguous_witness :
  map (sanitize EscapeAll) ["=a"; "b"] = map (sanitize EscapeAll) [" =a"; "b"].
Proof.
  apply (written_record_unambiguous (freshWriter (lit ",") false EscapeAll)
           "=a" ["b"] " =a" ["b"] eq_refl (or_introl eq_refl)
           (fst (Write (freshWriter (lit ",") false EscapeAll) ["=a"; "b"]))
           (fst (Write (freshWriter (lit ",") false EscapeAll) [" =a"; "b"])));
    reflexivity.
Defined.

(** ** Records that fit in the buffer *)

Lemma buffers_skip : buffers "" skip.
Proof.
  intros b Eb _. unfold skip. destruct b as [e bf wr0]. cbn in *.
  subst e. rewrite app_nil_r. reflexivity.
Qed.

Lemma buffers_andThen (s t : string) (a1 a2 : action) :
  buffers s a1 -> buffers t a2 -> buffers (s ++ t) (a1 ;; a2).
Proof.
  intros B1 B2 b Eb Hl. rewrite len_app in Hl. unfold andThen.
  rewrite (B1 b Eb) by lia.
  rewrite (B2 (bufio.mkWriter None (bufio.buf b ++ s) (bufio.wr b)) eq_refl)
    by (cbn [bufio.buf]; rewrite len_app; lia).
  cbn [bufio.buf bufio.wr]. rewrite app_assoc. reflexivity.
Qed.

Lemma buffers_writeString (s : string) : buffers s (writeString s).
Proof.
  intros b Eb Hl. unfold writeString, bufio.WriteString.
  assert (C : bufio.loopCond b s = false).
  { unfold bufio.loopCond, bufio.Available.
    rewrite (proj2 (Nat.ltb_ge _ _)) by lia. reflexivity. }
  rewrite (writeLoop_done _ _ _ _ C). unfold bufio.writeTail. rewrite Eb.
  reflexivity.
Qed.

Lemma buffers_writeByte (c : byte) : buffers (str1 c) (writeByte c).
Proof.
  intros b Eb Hl. unfold writeByte, bufio.WriteByte. rewrite Eb.
  unfold bufio.Available.
  rewrite (proj2 (Nat.leb_gt _ _)) by (unfold len, str1 in *; simpl in Hl; lia).
  rewrite Eb. reflexivity.
Qed.

Lemma EncodeRune_nonempty (r : rune) : (1 <= len (utf8.EncodeRune r))%nat.
Proof.
  unfold utf8.EncodeRune, utf8.encode3.
  repeat match goal with |- context [if ?c then _ else _] => destruct c end;
    unfold len; simpl; lia.
Qed.

Lemma buffers_writeRune (r : rune) : buffers (utf8.EncodeRune r) (writeRune r).
Proof.
  intros b Eb Hl. unfold writeRune, bufio.WriteRune.
  destruct (uint32 r <? utf8.RuneSelf) eqn:A.
  - rewrite (EncodeRune_ascii _ A) in *.
    pose proof (buffers_writeByte (z2b r) b Eb Hl) as W.
    unfold writeByte in W. rewrite W. reflexivity.
  - rewrite Eb. pose proof (EncodeRune_nonempty r) as N.
    unfold bufio.Available, utf8.UTFMax.
    rewrite (proj2 (Nat.ltb_ge _ _)) by lia. reflexivity.
Qed.

Lemma buffers_encodeSpecial (useCRLF : bool) (c : byte) :
  strings.hasByte specials c = true ->
  buffers (escapeByte useCRLF c) (encodeSpecial useCRLF c).
Proof.
  intros H. unfold escapeByte, encodeSpecial.
  destruct (Ascii.eqb c DQ) eqn:Edq; [apply buffers_writeString|].
  destruct (Ascii.eqb c CR) eqn:Ecr.
  - destruct useCRLF; simpl; [apply buffers_skip | apply buffers_writeByte].
  - destruct (Ascii.eqb c LF) eqn:Elf.
    + destruct useCRLF; [apply buffers_writeString | apply buffers_writeByte].
    + unfold specials in H; simpl in H.
      rewrite Edq, Ecr, Elf in H. discriminate.
Qed.

Lemma buffers_quotedBody (useCRLF : bool) (field : string) :
  buffers (escape useCRLF field) (quotedBody useCRLF field).
Proof.
  funelim (quotedBody useCRLF field); clear Heqcall; clear_funelim.
  - apply Nat.ltb_ge in e. assert (E : field = "") by (apply len_0; lia). subst.
    apply buffers_skip.
  - destruct (nextSpecial_spec field) as (Hle & Hplain & Hsp).
    apply Nat.ltb_lt in e0. rewrite len_drop in e0.
    specialize (Hsp ltac:(lia)).
    rewrite <- (take_drop (nextSpecial field) field) at 1.
    rewrite escape_app, (escape_plain _ _ Hplain).
    rewrite (split_at0 (drop (nextSpecial field) field)) at 1
      by (rewrite len_drop; lia).
    cbn [escape].
    apply buffers_andThen; [apply buffers_writeString|].
    apply buffers_andThen; [apply buffers_encodeSpecial; assumption |].
    match goal with IH : bufio.Writer -> buffers _ _ |- _ =>
      exact (IH (bufio.NewWriter (Builder ""))) end.
  - destruct (nextSpecial_spec field) as (Hle & Hplain & _).
    rewrite <- (take_drop (nextSpecial field) field) at 1.
    rewrite escape_app, (escape_plain _ _ Hplain).
    apply buffers_andThen; [apply buffers_writeString |].
    match goal with IH : bufio.Writer -> buffers _ _ |- _ =>
      exact (IH (bufio.NewWriter (Builder ""))) end.
Qed.

Lemma buffers_writeField (sw : SafeWriter) (field : string) :
  buffers (encodeField sw field) (writeField sw field).
Proof.
  unfold encodeField, writeField. cbv zeta.
  destruct (fieldNeedsQuotes sw (sanitize (opts sw) field)); cbn [negb].
  - unfold quoted. change (String DQ ?s) with (str1 DQ ++ s).
    apply buffers_andThen; [apply buffers_writeByte|].
    apply buffers_andThen; [apply buffers_quotedBody | apply buffers_writeByte].
  - apply buffers_writeString.
Qed.

Lemma buffers_writeFields_next (sw : SafeWriter) (n : nat) (record : list string) :
  buffers (delimited (utf8.EncodeRune (Comma sw)) (map (encodeField sw) record))
          (writeFields sw (S n) record).
Proof.
  revert n; induction record as [|f rest IH]; intros n; cbn [writeFields map delimited].
  - apply buffers_skip.
  - change (0 <? S n)%nat with true. cbv iota.
    apply buffers_andThen; [apply buffers_writeRune|].
    apply buffers_andThen; [apply buffers_writeField | apply IH].
Qed.

Lemma buffers_record (sw : SafeWriter) (record : list string) :
  buffers (encodeRecord sw record) (writeFields sw 0 record ;; writeTerminator sw).
Proof.
  unfold encodeRecord. apply buffers_andThen.
  - destruct record as [|f rest]; [apply buffers_skip|].
    cbn [map]. rewrite joinFields_cons. cbn [writeFields].
    change (0 <? 0)%nat with false. cbv iota.
    change (encodeField sw f ++ ?t) with ("" ++ encodeField sw f ++ t).
    apply buffers_andThen; [apply buffers_skip|].
    apply buffers_andThen; [apply buffers_writeField | apply buffers_writeFields_next].
  - unfold terminator, writeTerminator.
    destruct (UseCRLF sw); [apply buffers_writeString | apply buffers_writeByte].
Qed.

(** X14. Writes are buffered.  With a valid delimiter and no sticky
    error, a record whose bytes fit in the free part of the buffer with
    three bytes to spare is copied into the buffer: [Write] returns nil,
    the buffer has grown by the bytes of the record, and the sink has
    not been called, so that nothing reaches it before [Flush]. *)
Theorem Write_buffered (sw : SafeWriter) (record : list string) :
  validDelim (Comma sw) = true ->
  bufio.err (w sw) = None ->
  (len (bufio.buf (w sw)) + len (encodeRecord sw record) + 3
   <= bufio.defaultBufSize)%nat ->
  Write sw record
  = (withW sw (bufio.mkWriter None
                 (bufio.buf (w sw) ++ encodeRecord sw record)
                 (bufio.wr (w sw))),
     None).
Proof.
  intros V Eb Hl. rewrite (Write_valid _ _ V).
  rewrite (buffers_record sw record (w sw) Eb Hl). reflexivity.
Qed.

Lemma Write_buffered_witness :
  io.written (bufio.wr (w (fst (Write (NewSafeWriter (Builder "") EscapeAll)
                                      ["a"; "=b"]))))
  = "".
Proof.
  rewrite (Write_buffered (NewSafeWriter (Builder "") EscapeAll) ["a"; "=b"]
             eq_refl eq_refl).
  - reflexivity.
  - vm_compute. lia.
Defined.

(** ** One record on any sink, and records in sequence *)

(** X15. With a valid delimiter, whatever the sink does, an error that
    [Write] returns is the sticky error that [Error] returns afterwards,
    and the output has grown by a prefix of the bytes of the record and
    by nothing else; when [Write] returns nil the prefix is the whole
    record. *)
Theorem Write_failure_truncates (sw sw' : SafeWriter) (record : list string)
        (e : option error) :
  validDelim (Comma sw) = true ->
  Write sw record = (sw', e) ->
  snd (Error sw') = e
  /\ (exists k, (k <= len (encodeRecord sw record))%nat
                /\ output sw' = output sw ++ take k (encodeRecord sw record))
  /\ (e = None -> output sw' = output sw ++ encodeRecord sw record).
Proof.
  intros V W.
  destruct (Write_spec sw record V sw' e W) as (_ & L & S & _ & P).
  rewrite (Error_eq sw'). cbn [snd]. conjs; assumption.
Qed.

Lemma Write_failure_truncates_witness :
  snd (Error (fst (Write (NewSafeWriter (failingSink 2) noSafety)
                         [replicate 5000 "a"%char])))
  = Some diskFull.
Proof.
  destruct (Write_failure_truncates
              (NewSafeWriter (failingSink 2) noSafety)
              (fst (Write (NewSafeWriter (failingSink 2) noSafety)
                          [replicate 5000 "a"%char]))
              [replicate 5000 "a"%char] (Some diskFull) eq_refl)
    as (H & _).
  - vm_compute. reflexivity.
  - exact H.
Defined.

(** X16. Records written one after the other compose: after a sequence
    of writes without error the output is the former output followed by
    the bytes of the records in order, each record giving the bytes it
    would give alone, and the delimiter, the mode and the policy are
    what they were. *)
Theorem writes_compose (sw sw1 : SafeWriter) (records : list (list string)) :
  written_all sw records sw1 ->
  output sw1 = output sw ++ encodeRecords sw records
  /\ sw1 = withW sw (w sw1).
Proof.
  induction 1 as [sw | sw sw1 sw2 record rest W _ IH]; cbn [encodeRecords].
  - rewrite app_nil_r, withW_same. split; reflexivity.
  - destruct (validDelim (Comma sw)) eqn:V;
      [|rewrite (Write_invalid _ _ V) in W; discriminate W].
    destruct (Write_spec sw record V sw1 None W) as (Esw & _ & S & _).
    destruct IH as [Ho Ew]. split.
    + rewrite Ho, (S eq_refl), app_assoc. f_equal. f_equal.
      rewrite Esw. apply encodeRecords_withW.
    + rewrite Ew at 1. rewrite Esw. reflexivity.
Qed.

Lemma writes_compose_witness :
  output (fst (Write (fst (Write (freshWriter (lit ",") false EscapeAll) ["a"]))
                     ["=b"; "c"]))
  = "" ++ encodeRecords (freshWriter (lit ",") false EscapeAll) [["a"]; ["=b"; "c"]].
Proof.
  apply (writes_compose (freshWriter (lit ",") false EscapeAll)).
  econstructor; [reflexivity|]. econstructor; [reflexivity|]. constructor.
Defined.

(** ** The record without field and the record with one empty field *)

Lemma writeString_empty (b : bufio.Writer) :
  writeString "" b = (b, bufio.err b).
Proof.
  unfold writeString, bufio.WriteString.
  assert (C : bufio.loopCond b "" = false).
  { unfold bufio.loopCond. change (len "") with 0%nat.
    rewrite (proj2 (Nat.ltb_ge _ _)) by lia. reflexivity. }
  rewrite (writeLoop_done _ _ _ _ C). unfold bufio.writeTail.
  destruct b as [e bf wr0]. cbn [bufio.err bufio.buf bufio.wr].
  destruct e; [reflexivity|]. rewrite app_nil_r. reflexivity.
Qed.

(** X17. The record with no field and the record whose only field is
    empty are written alike: for every writer, [Write] returns the same
    error and leaves the same writer for both, so that the bytes written
    do not tell them apart. *)
Theorem empty_field_as_no_field (sw : SafeWriter) :
  Write sw [""] = Write sw [].
Proof.
  unfold Write. destruct (negb (validDelim (Comma sw))); [reflexivity|].
  cbn [writeFields]. change (0 <? 0)%nat with false. cbv iota.
  unfold andThen at 1 2 3 4. unfold skip at 1 2.
  unfold writeField. cbv zeta.
  change (sanitize (opts sw) "") with "".
  change (fieldNeedsQuotes sw "") with false. cbn [negb].
  rewrite writeString_empty. unfold skip. cbv beta iota.
  destruct (bufio.err (w sw)) as [x|] eqn:Eb; [|reflexivity].
  pose proof (strict_writeTerminator sw (w sw) x Eb) as St.
  destruct (writeTerminator sw (w sw)) as [b' e'] eqn:T. cbn [snd] in St.
  destruct (appends_writeTerminator sw _ _ _ T) as (_ & _ & _ & K & _).
  rewrite (K _ Eb), St. reflexivity.
Qed.
